(** * python-cleaner: the scanning and cleaning workers

    A shallow embedding of the two worker threads of [python-cleaner.py],
    [Scanner] (lines 41-225) and [Cleaner] (lines 228-292), of the slots of
    the window that receive their signals, and of the part of the operating
    system they talk to.

    Conventions.
    - A path is the list of its components below the top of the file tree;
      [os.path.join root name] appends one component.
    - The file tree holds regular files, directories, directories that may
      not be listed, links whose target cannot be examined and links that
      lead somewhere.  A link that leads somewhere is recorded with what it
      leads to, so that every call that follows links ([os.stat],
      [os.path.exists], [os.scandir], [DirEntry.is_file] and the like) finds
      the target, and every call that does not ([os.walk] into
      subdirectories, [shutil.rmtree], [os.remove]) finds the link.
    - Python [int] is [Z].  A Python float is a rational [Q] that a float
      can hold; [double] rounds a rational to the nearest such number, and
      the quotients and products of [_format_size], of the two percentages
      and of [on_scan_finished] are rounded with it.  The size handed to a
      finished signal and the age in days of the venv rule are written as
      the exact numbers: a slot receives [double] of the first, and the
      second differs from its float by the rounding of one subtraction and
      one division.
    - A worker is a function from its local variables to the signals it
      emits, the way it ends (normally or by a raised exception) and the
      final value of the locals.  A signal stands in the trace with the
      arguments the worker passes to [emit]; a slot is called with [c_int]
      of an [int] argument and [double] of a float argument.
    - A thread may nest [recursion_limit] Python frames; [_get_dir_size] is
      the one function of the workers that calls itself.
    - [time.time()] is read once for every directory with a marker that the
      venv rule looks at.  A run has one reading [now]: the verdict of the
      rule can only turn from "in use" to "stale" as the clock goes on
      (lemma [stale_later]), so this is the run for all readings between
      which no verdict turns.
    - [self.running] is written by another thread through [stop()], which can
      only clear it.  A run is therefore parameterised by the index of the
      first read that sees the flag cleared ([None]: never). *)

From Stdlib Require Import List String ZArith QArith Qround Bool Lia.
From Stdlib Require Import Qpower Qabs Qfield.
From Stdlib Require DecimalString Lqa.
Import ListNotations.

Local Open Scope string_scope.
Local Open Scope list_scope.
Local Open Scope Z_scope.

(** ** Exceptions *)

(** The exception classes that matter.  [PermissionError] and
    [FileNotFoundError] are subclasses of [OSError]; [OSError] here stands
    for every other member of that class, and [RuntimeError] for its
    subclass [RecursionError] as well.  All five derive from [Exception]. *)
Inductive exn : Type :=
| PermissionError
| FileNotFoundError
| OSError
| ValueError
| RuntimeError.

Definition is_OSError (e : exn) : bool :=
  match e with
  | PermissionError | FileNotFoundError | OSError => true
  | ValueError | RuntimeError => false
  end.

Inductive result (A : Type) : Type :=
| Ok (a : A)
| Raise (e : exn).
Arguments Ok {A} a.
Arguments Raise {A} e.

Definition is_ok {A} (r : result A) : bool :=
  match r with Ok _ => true | Raise _ => false end.

(** ** The file tree *)

Definition name := string.
Definition path := list name.

(** Why the target of a symbolic link cannot be examined.  ([ELOOP] is how
    a cycle of links ends: the system follows 40 links in one path, far
    fewer than the interpreter allows frames.) *)
Inductive errno : Type := ENOENT | EACCES | ELOOP.

Definition exn_of (why : errno) : exn :=
  match why with
  | ENOENT => FileNotFoundError
  | EACCES => PermissionError
  | ELOOP => OSError
  end.

(** [st_size] is an [off_t], below [2^63]. *)
#[warnings="-register-all"]
Inductive node : Type :=
| File (st_size : Z) (st_atime : Q)      (* a regular file *)
| Dir (entries : list (name * node))     (* a directory, in listing order *)
| Sealed                                 (* a directory that may not be listed *)
| Link (why : errno)                     (* a link whose target [stat] rejects *)
| Symlink (target : node).               (* a link, with what it leads to *)

Definition join (root : path) (n : name) : path := root ++ [n].

Fixpoint assoc (c : name) (es : list (name * node)) : option node :=
  match es with
  | [] => None
  | (n, x) :: es' => if String.eqb c n then Some x else assoc c es'
  end.

(** What [stat] finds at a node: links are followed to the file or
    directory at their end, or to the error that ends them. *)
Fixpoint follow (x : node) : result node :=
  match x with
  | Symlink target => follow target
  | Link why => Raise (exn_of why)
  | File _ _ | Dir _ | Sealed => Ok x
  end.

(** One more component of a path: it is looked up in the directory the path
    so far leads to, through links. *)
Definition child (o : option node) (c : name) : option node :=
  match o with
  | Some x =>
      match follow x with
      | Ok (Dir es) => assoc c es
      | _ => None
      end
  | None => None
  end.

(** The node a path names, without following a final link. *)
Definition resolve (fs : node) (p : path) : option node :=
  fold_left child p (Some fs).

Module os.

(** [os.stat] of a path. *)
Definition stat (fs : node) (p : path) : result node :=
  match resolve fs p with
  | Some x => follow x
  | None => Raise FileNotFoundError
  end.

(** [os.path.exists], [os.path.isdir], [os.path.isfile]: they follow links
    and answer [False] when [stat] fails. *)
Definition exists_ (fs : node) (p : path) : bool :=
  is_ok (stat fs p).

Definition isdir (fs : node) (p : path) : bool :=
  match stat fs p with
  | Ok (Dir _) | Ok Sealed => true
  | _ => false
  end.

Definition isfile (fs : node) (p : path) : bool :=
  match stat fs p with
  | Ok (File _ _) => true
  | _ => false
  end.

(** [os.path.islink], on the node a path names. *)
Definition islink (x : node) : bool :=
  match x with
  | Link _ | Symlink _ => true
  | File _ _ | Dir _ | Sealed => false
  end.

(** The [st_size] and [st_atime] of a directory inode.  The workers never
    read them: [getsize] and [getatime] are applied to non-directories. *)
Definition dir_st_size : Z := 4096.
Definition dir_st_atime : Q := 0%Q.

(** [os.path.getsize] and [os.path.getatime]: [os.stat] may raise. *)
Definition getsize (fs : node) (p : path) : result Z :=
  match stat fs p with
  | Ok (File sz _) => Ok sz
  | Ok _ => Ok dir_st_size
  | Raise e => Raise e
  end.

Definition getatime (fs : node) (p : path) : result Q :=
  match stat fs p with
  | Ok (File _ at_) => Ok at_
  | Ok _ => Ok dir_st_atime
  | Raise e => Raise e
  end.

(** [os.listdir]: of a regular file it is a [NotADirectoryError], an
    [OSError]. *)
Definition listdir (fs : node) (p : path) : result (list name) :=
  match stat fs p with
  | Ok (Dir es) => Ok (map fst es)
  | Ok Sealed => Raise PermissionError
  | Ok _ => Raise OSError
  | Raise e => Raise e
  end.

(** [DirEntry.is_dir()] as [os.walk] uses it: links are followed, and an
    [OSError] counts as "not a directory". *)
Definition entry_is_dir (x : node) : bool :=
  match follow x with
  | Ok (Dir _) | Ok Sealed => true
  | _ => false
  end.

Definition dirs_of (es : list (name * node)) : list name :=
  map fst (filter (fun e => entry_is_dir (snd e)) es).

Definition files_of (es : list (name * node)) : list name :=
  map fst (filter (fun e => negb (entry_is_dir (snd e))) es).

(** What [os.walk] yields: [(root, dirs, files)]. *)
Abbreviation triple := (path * list name * list name)%type.

(** [os.walk(top)], top-down, [onerror=None], [followlinks=False]: a
    directory that cannot be listed yields nothing, and a link to a
    directory is listed among [dirs] and not walked into. *)
Fixpoint walk_node (top : path) (x : node) : list triple :=
  match x with
  | Dir es =>
      (top, dirs_of es, files_of es)
        :: (fix below (l : list (name * node)) : list triple :=
              match l with
              | [] => []
              | (n, c) :: l' =>
                  (if entry_is_dir c && negb (islink c)
                   then walk_node (join top n) c else [])
                    ++ below l'
              end) es
  | File _ _ | Sealed | Link _ | Symlink _ => []
  end.

(** [top] itself is listed through a link. *)
Definition walk (fs : node) (top : path) : list triple :=
  match stat fs top with
  | Ok x => walk_node top x
  | Raise _ => []
  end.

End os.

(** ** Strings *)

(** [str.endswith]. *)
Definition endswith (s suffix : string) : bool :=
  let n := String.length s in
  let m := String.length suffix in
  (m <=? n)%nat && String.eqb (substring (n - m) m s) suffix.

Definition len {A} (l : list A) : Z := Z.of_nat (List.length l).

(** ** Numbers *)

(** The nearest integer, a tie going to the even one. *)
Definition round_half_even (q : Q) : Z :=
  let f := Qfloor q in
  match (q - inject_Z f ?= 1 # 2)%Q with
  | Lt => f
  | Gt => f + 1
  | Eq => if Z.even f then f else f + 1
  end.

(** The power of two at or below the magnitude of a rational that is not
    zero: [k] with [2^k <= |q| < 2^(k+1)]. *)
Definition binade (q : Q) : Z :=
  let k := Z.log2 (Z.abs (Qnum q)) - Z.log2 (Z.pos (Qden q)) in
  if Qle_bool (2 ^ k) (Qabs q) then k else k - 1.

(** The float nearest to a rational, a tie going to the even significand:
    the multiple of [2^(k - 52)] nearest to it, where [k] is its binade.
    This is the value of a float operation whose exact result is the
    rational, for magnitudes from [2^-1022] to below [2^1024]. *)
Definition double (q : Q) : Q :=
  if Qeq_bool q 0 then 0%Q
  else
    let ulp := (2 ^ (binade q - 52))%Q in
    (inject_Z (round_half_even (q / ulp)) * ulp)%Q.

(** [a / b] on two [int]s, which CPython rounds once, and [x * y] on two
    floats. *)
Definition true_divide (a b : Z) : Q := double (inject_Z a / inject_Z b).

Definition fmul (x y : Q) : Q := double (x * y).

(** [int] of a float: towards zero. *)
Definition int_ (x : Q) : Z := Z.quot (Qnum x) (Z.pos (Qden x)).

(** An [int] argument of a signal on arrival in its slot: the signals are
    declared with the C++ type [int], of 32 bits, and a Python [int] that
    does not fit wraps around. *)
Definition c_int (z : Z) : Z := (z + 2 ^ 31) mod 2 ^ 32 - 2 ^ 31.

(** ** Signals *)

Inductive level : Type := info | warning | error.

(** The texts handed to [log_signal], by the place that formats them. *)
Inductive message : Type :=
| scan_started                              (* line 61 *)
| path_missing (p : path)                   (* line 69 *)
| no_valid_paths                            (* line 72 *)
| scanning (base_path : path)               (* line 78 *)
| scan_done (total_items total_size : Z)    (* line 192 *)
| scan_failed (e : exn)                     (* line 200 *)
| clean_started                             (* line 248 *)
| removing_dir (p : path)                   (* line 259 *)
| removing_file (p : path)                  (* line 262 *)
| item_failed (p : path) (e : exn)          (* line 269 *)
| clean_done (items_cleaned total_size_cleaned : Z)   (* line 272 *)
| clean_failed (e : exn).                   (* line 280 *)

(** What a worker does that its surroundings can observe: the six signals of
    [SignalBridge] and the reads of its own [running] flag. *)
Inductive event : Type :=
| log_signal (m : message) (l : level)
| found_item_signal (p : path) (type_name : string) (size : Z) (checked : bool)
| scan_finished_signal (success : bool) (count : Z) (size : Q)
| progress_signal (current total : Z)
| clean_progress_signal (current total : Z) (p : path)
| clean_finished_signal (success : bool) (count : Z) (size : Q)
| running_read (value : bool).

(** The value of [self.running] at the [i]-th read. *)
Definition running_at (stop : option nat) (i : nat) : bool :=
  match stop with
  | None => true
  | Some k => (i <? k)%nat
  end.

(** ** Workers *)

Record out (St A : Type) : Type := Out {
  emitted : list event;
  outcome : result A;
  final : St
}.
Arguments Out {St A} _ _ _.
Arguments emitted {St A} _.
Arguments outcome {St A} _.
Arguments final {St A} _.

Definition M (St A : Type) : Type := St -> out St A.

Section Monad.
Context {St : Type}.

Definition ret {A} (a : A) : M St A := fun s => Out [] (Ok a) s.

Definition raise {A} (e : exn) : M St A := fun s => Out [] (Raise e) s.

Definition bind {A B} (c : M St A) (f : A -> M St B) : M St B :=
  fun s =>
    let o := c s in
    match outcome o with
    | Ok a =>
        let o' := f a (final o) in
        Out (emitted o ++ emitted o') (outcome o') (final o')
    | Raise e => Out (emitted o) (Raise e) (final o)
    end.

(** [try: c  except classes as e: h e]; an exception outside [classes]
    passes through. *)
Definition try_except {A} (c : M St A) (classes : exn -> bool)
  (h : exn -> M St A) : M St A :=
  fun s =>
    let o := c s in
    match outcome o with
    | Ok _ => o
    | Raise e =>
        if classes e then
          let o' := h e (final o) in
          Out (emitted o ++ emitted o') (outcome o') (final o')
        else o
    end.

(** [except Exception]. *)
Definition Exception (e : exn) : bool := true.

Definition emit (e : event) : M St unit := fun s => Out [e] (Ok tt) s.

Definition get : M St St := fun s => Out [] (Ok s) s.

Definition modify (f : St -> St) : M St unit := fun s => Out [] (Ok tt) (f s).

(** A call that does not touch the locals. *)
Definition lift {A} (r : result A) : M St A := fun s => Out [] r s.

End Monad.

Notation "x <- c ;; k" := (bind c (fun x => k))
  (at level 61, c at next level, right associativity).
Notation "c ;; k" := (bind c (fun _ => k))
  (at level 61, right associativity).

(** [for x in l: body x], without [break]. *)
Fixpoint for_each {St A} (l : list A) (body : A -> M St unit) : M St unit :=
  match l with
  | [] => ret tt
  | x :: l' => body x ;; for_each l' body
  end.

(** [[f x for x in l]] where [f] may raise. *)
Fixpoint traverse {A B} (f : A -> result B) (l : list A) : result (list B) :=
  match l with
  | [] => Ok []
  | x :: l' =>
      match f x with
      | Ok y =>
          match traverse f l' with
          | Ok ys => Ok (y :: ys)
          | Raise e => Raise e
          end
      | Raise e => Raise e
      end
  end.

(** ** Scan options *)

(** The dictionary built by [start_scan] (lines 610-618): it always carries
    these seven keys, so every [scan_options.get(key, default)] finds its
    key. *)
Record options : Type := {
  pycache : bool;
  pyc_files : bool;
  venv : bool;
  venv_days : Z;
  jupyter : bool;
  temp_files : bool;
  build_dirs : bool
}.

(** ** class Scanner *)

Module Scanner.

(** The local variables of [run] that outlive a raised exception, and the
    number of times [self.running] has been read. *)
Record locals : Type := {
  total_items : Z;
  total_size : Z;
  polls : nat
}.

Definition start : locals :=
  {| total_items := 0; total_size := 0; polls := 0 |}.

(** [sys.getrecursionlimit()], which the program never sets: the number of
    Python frames a thread may nest.  A call beyond it raises
    [RecursionError], a [RuntimeError]. *)
Definition recursion_limit : nat := 1000.

(** [_get_dir_size] on the node its argument names, with [depth] frames
    left.  [os.scandir] lists through a link; [entry.is_file()],
    [entry.stat()] and [entry.is_dir()] follow links, and [is_file] and
    [is_dir] answer [False] where the target is not found.  [total] is the
    local of one call; the loop hands back what it reached and the exception
    that interrupted it, and the [except (PermissionError,
    FileNotFoundError)] around the whole loop decides what to do with it. *)
Fixpoint dir_size_of (depth : nat) (x : node) {struct x} : result Z :=
  match depth with
  | O => Raise RuntimeError
  | S depth' =>
      match x with
      | Dir es =>
          let '(total, interrupted) :=
            (fix each (l : list (name * node)) (total : Z) : Z * option exn :=
               match l with
               | [] => (total, None)
               | (_, c) :: l' =>
                   match follow c with
                   | Ok (File sz _) => each l' (total + sz)
                   | Ok _ =>
                       match dir_size_of depth' c with
                       | Ok s => each l' (total + s)
                       | Raise e => (total, Some e)
                       end
                   | Raise FileNotFoundError => each l' total
                   | Raise e => (total, Some e)
                   end
               end) es 0 in
          match interrupted with
          | None | Some PermissionError | Some FileNotFoundError => Ok total
          | Some e => Raise e
          end
      | Sealed => Ok 0
      | Link ENOENT | Link EACCES => Ok 0
      | Link ELOOP => Raise OSError
      | File _ _ => Raise OSError
      | Symlink target => dir_size_of depth target
      end
  end.

(** [run] is the first frame of its thread, so a call of [_get_dir_size]
    from [run] has one frame less than the limit. *)
Definition _get_dir_size (fs : node) (p : path) : result Z :=
  match resolve fs p with
  | Some x => dir_size_of (Nat.pred recursion_limit) x
  | None => Ok 0
  end.

Definition venv_markers : list name :=
  ["pyvenv.cfg"; "activate"; "python.exe"; "pip.exe"].

(** [max] of a sequence of floats; the empty sequence is a [ValueError]. *)
Definition max_ (l : list Q) : result Q :=
  match l with
  | [] => Raise ValueError
  | x :: l' => Ok (fold_left (fun m y => if Qle_bool y m then m else y) l' x)
  end.

Section Run.

Variable fs : node.
Variable scan_options : options.
Variable now : Q.
Variable stop : option nat.

Definition read_running : M locals bool :=
  fun s =>
    let value := running_at stop (polls s) in
    Out [running_read value] (Ok value)
        {| total_items := total_items s;
           total_size := total_size s;
           polls := S (polls s) |}.

(** [total_items += 1; total_size += size; found_item_signal.emit(...)]. *)
Definition found (p : path) (type_name : string) (size : Z) (checked : bool)
  : M locals unit :=
  modify (fun s => {| total_items := total_items s + 1;
                      total_size := total_size s + size;
                      polls := polls s |}) ;;
  emit (found_item_signal p type_name size checked).

(** Lines 103-112. *)
Definition pycache_rule (root : path) (dirs : list name) : M locals unit :=
  if pycache scan_options then
    for_each dirs (fun dir_name =>
      if String.eqb dir_name "__pycache__" then
        let dir_path := join root dir_name in
        size <- lift (_get_dir_size fs dir_path) ;;
        found dir_path "pycache" size true
      else ret tt)
  else ret tt.

(** Lines 115-124. *)
Definition pyc_rule (root : path) (files : list name) : M locals unit :=
  if pyc_files scan_options then
    for_each files (fun file_name =>
      if endswith file_name ".pyc" then
        let file_path := join root file_name in
        size <- lift (os.getsize fs file_path) ;;
        found file_path "pyc" size true
      else ret tt)
  else ret tt.

(** Lines 129-136. *)
Definition is_venv (root : path) : bool :=
  existsb (fun marker =>
             os.exists_ fs (join root marker)
             || os.exists_ fs (join (join root "bin") marker)
             || os.exists_ fs (join (join root "Scripts") marker))
          venv_markers.

(** Lines 140-144. *)
Definition last_access_time (root : path) : result Q :=
  match os.listdir fs root with
  | Ok names =>
      match traverse (fun f => os.getatime fs (join root f))
                     (filter (fun f => os.isfile fs (join root f)) names) with
      | Ok atimes => max_ atimes
      | Raise e => Raise e
      end
  | Raise e => Raise e
  end.

(** Lines 127-153. *)
Definition venv_rule (root : path) : M locals unit :=
  if venv scan_options then
    if is_venv root then
      last <- lift (last_access_time root) ;;
      let days_since_access := ((now - last) / inject_Z (60 * 60 * 24))%Q in
      if negb (Qle_bool days_since_access (inject_Z (venv_days scan_options)))
      then
        size <- lift (_get_dir_size fs root) ;;
        found root "venv" size false
      else ret tt
    else ret tt
  else ret tt.

(** Lines 156-165. *)
Definition jupyter_rule (root : path) (dirs : list name) : M locals unit :=
  if jupyter scan_options then
    for_each dirs (fun dir_name =>
      if String.eqb dir_name ".ipynb_checkpoints" then
        let dir_path := join root dir_name in
        size <- lift (_get_dir_size fs dir_path) ;;
        found dir_path "jupyter" size true
      else ret tt)
  else ret tt.

(** Lines 168-177. *)
Definition temp_rule (root : path) (files : list name) : M locals unit :=
  if temp_files scan_options then
    for_each files (fun file_name =>
      if existsb (endswith file_name) [".pyc.tmp"; ".py~"; ".pyo"] then
        let file_path := join root file_name in
        size <- lift (os.getsize fs file_path) ;;
        found file_path "temp" size true
      else ret tt)
  else ret tt.

(** Lines 180-189: [dir_name in ["build", "dist", "*.egg-info"]] is
    membership in a list of three strings. *)
Definition build_rule (root : path) (dirs : list name) : M locals unit :=
  if build_dirs scan_options then
    for_each dirs (fun dir_name =>
      if existsb (String.eqb dir_name) ["build"; "dist"; "*.egg-info"] then
        let dir_path := join root dir_name in
        size <- lift (_get_dir_size fs dir_path) ;;
        found dir_path "build" size true
      else ret tt)
  else ret tt.

(** The six checks of one directory level, lines 100-189. *)
Definition inspect (root : path) (dirs files : list name) : M locals unit :=
  pycache_rule root dirs ;;
  pyc_rule root files ;;
  venv_rule root ;;
  jupyter_rule root dirs ;;
  temp_rule root files ;;
  build_rule root dirs.

(** Lines 81-85: the counting pass. *)
Fixpoint count_pass (w : list os.triple) (total_count : Z) : M locals Z :=
  match w with
  | [] => ret total_count
  | (_, dirs, files) :: w' =>
      running <- read_running ;;
      if negb running then ret total_count
      else count_pass w' (total_count + (len dirs + len files))
  end.

(** Lines 90-189: the pass that reports. *)
Fixpoint scan_pass (w : list os.triple) (total_count current_count : Z)
  : M locals unit :=
  match w with
  | [] => ret tt
  | (root, dirs, files) :: w' =>
      running <- read_running ;;
      if negb running then ret tt
      else
        let current_count := current_count + (len dirs + len files) in
        (if 0 <? total_count then
           let progress :=
             int_ (fmul (true_divide current_count total_count) 100) in
           emit (progress_signal progress 100)
         else ret tt) ;;
        inspect root dirs files ;;
        scan_pass w' total_count current_count
  end.

(** Lines 77-189, one [base_path]. *)
Definition scan_base (base_path : path) : M locals unit :=
  emit (log_signal (scanning base_path) info) ;;
  total_count <- count_pass (os.walk fs base_path) 0 ;;
  scan_pass (os.walk fs base_path) total_count 0.

(** Lines 64-69. *)
Fixpoint check_paths (l paths_to_scan : list path) : M locals (list path) :=
  match l with
  | [] => ret paths_to_scan
  | p :: l' =>
      if os.exists_ fs p then check_paths l' (paths_to_scan ++ [p])
      else
        emit (log_signal (path_missing p) warning) ;;
        check_paths l' paths_to_scan
  end.

(** Lines 195-197. *)
Definition finish : M locals unit :=
  s <- get ;;
  emit (log_signal (scan_done (total_items s) (total_size s)) info) ;;
  let total_size_mb := (inject_Z (total_size s) / inject_Z (1024 * 1024))%Q in
  emit (scan_finished_signal true (total_items s) total_size_mb).

(** Lines 199-201. *)
Definition on_exception (e : exn) : M locals unit :=
  s <- get ;;
  emit (log_signal (scan_failed e) error) ;;
  emit (scan_finished_signal false (total_items s) (inject_Z (total_size s))).

(** Lines 61-197: the body of the [try] after the two counters are set. *)
Definition scan (scan_paths : list path) : M locals unit :=
  emit (log_signal scan_started info) ;;
  paths_to_scan <- check_paths scan_paths [] ;;
  match paths_to_scan with
  | [] =>
      emit (log_signal no_valid_paths error) ;;
      emit (scan_finished_signal false 0 0%Q)
  | _ :: _ =>
      for_each paths_to_scan scan_base ;;
      finish
  end.

(** Lines 55-201. *)
Definition run (scan_paths : list path) : M locals unit :=
  try_except
    (modify (fun s => {| total_items := 0; total_size := 0;
                         polls := polls s |}) ;;
     scan scan_paths)
    Exception on_exception.

End Run.

(** What the thread emits from start to end. *)
Definition signals (fs : node) (scan_options : options) (now : Q)
  (stop : option nat) (scan_paths : list path) : list event :=
  emitted (run fs scan_options now stop scan_paths start).

End Scanner.

(** ** Deleting *)

(** [Cleaner.run] deletes through [shutil.rmtree] and [os.remove].  Each takes
    a path and the file tree and gives the tree it leaves behind, with the
    exception it raised if it raised one.  What is proved of the cleaner for
    every [deleting] holds whatever these two calls do to the disk; the
    file-tree back end [posix] below changes the tree along the path it is
    given, so what a link elsewhere leads to stays as that link records
    it. *)
Record deleting : Type := {
  shutil_rmtree : path -> node -> node * option exn;
  os_remove : path -> node -> node * option exn
}.

(** Applies [g] to what a chain of links leads to, and keeps the links. *)
Fixpoint behind (g : node -> node) (x : node) : node :=
  match x with
  | Symlink target => Symlink (behind g target)
  | File _ _ | Dir _ | Sealed | Link _ => g x
  end.

(** Applies [f] to the node at [p]; [None] from [f] unlinks the node.  The
    components before the last are looked up through links, as [resolve]
    does. *)
Fixpoint alter (p : path) (f : node -> option node) {struct p}
  : node -> option node :=
  match p with
  | [] => f
  | c :: p' =>
      fun x =>
        Some (behind
          (fun d =>
             match d with
             | Dir es =>
                 Dir
                   ((fix go (l : list (name * node)) : list (name * node) :=
                       match l with
                       | [] => []
                       | (n, y) :: l' =>
                           if String.eqb c n then
                             match alter p' f y with
                             | Some y' => (n, y') :: l'
                             | None => l'
                             end
                           else (n, y) :: go l'
                       end) es)
             | _ => d
             end) x)
  end.

Definition put_at (p : path) (o : option node) (fs : node) : node :=
  match alter p (fun _ => o) fs with
  | Some fs' => fs'
  | None => fs
  end.

(** [shutil.rmtree] below one node: entries go in listing order, a
    subdirectory before its parent; the first failure stops the deletion and
    leaves the rest in place.  A link among the entries is unlinked and not
    followed; called on a link, [rmtree] refuses with an [OSError].
    [None]: the node is gone. *)
Fixpoint rmtree_node (x : node) : option (node * exn) :=
  match x with
  | Dir es =>
      match
        (fix each (l : list (name * node)) : option (list (name * node) * exn) :=
           match l with
           | [] => None
           | (n, c) :: l' =>
               match c with
               | Dir _ | Sealed =>
                   match rmtree_node c with
                   | None => each l'
                   | Some (c', e) => Some ((n, c') :: l', e)
                   end
               | File _ _ | Link _ | Symlink _ => each l'
               end
           end) es
      with
      | None => None
      | Some (rest, e) => Some (Dir rest, e)
      end
  | Sealed => Some (Sealed, PermissionError)
  | File _ _ | Link _ | Symlink _ => Some (x, OSError)
  end.

Module posix.

(** The top of the tree itself cannot be unlinked: [rmdir] fails there. *)
Definition rmtree (p : path) (fs : node) : node * option exn :=
  match resolve fs p with
  | None => (fs, Some FileNotFoundError)
  | Some x =>
      match rmtree_node x with
      | None =>
          match p with
          | [] => (Dir [], Some OSError)
          | _ :: _ => (put_at p None fs, None)
          end
      | Some (x', e) => (put_at p (Some x') fs, Some e)
      end
  end.

Definition remove (p : path) (fs : node) : node * option exn :=
  match resolve fs p with
  | None => (fs, Some FileNotFoundError)
  | Some (File _ _) | Some (Link _) | Some (Symlink _) =>
      match p with
      | [] => (fs, Some OSError)
      | _ :: _ => (put_at p None fs, None)
      end
  | Some (Dir _) | Some Sealed => (fs, Some OSError)
  end.

Definition deleting : deleting :=
  {| shutil_rmtree := rmtree; os_remove := remove |}.

End posix.

(** ** class Cleaner *)

Module Cleaner.

Record locals : Type := {
  total_size_cleaned : Z;
  items_cleaned : Z;
  polls : nat;
  disk : node
}.

Definition start (fs : node) : locals :=
  {| total_size_cleaned := 0; items_cleaned := 0; polls := 0; disk := fs |}.

(** One entry of [items_to_clean]: [(path, type_name, size)]. *)
Definition item : Type := path * string * Z.

Section Run.

Variable sys : deleting.
Variable stop : option nat.

Definition read_running : M locals bool :=
  fun s =>
    let value := running_at stop (polls s) in
    Out [running_read value] (Ok value)
        {| total_size_cleaned := total_size_cleaned s;
           items_cleaned := items_cleaned s;
           polls := S (polls s);
           disk := disk s |}.

(** A deleting call: it changes the disk and may raise. *)
Definition call (f : node -> node * option exn) : M locals unit :=
  fun s =>
    let '(fs', r) := f (disk s) in
    Out [] (match r with None => Ok tt | Some e => Raise e end)
        {| total_size_cleaned := total_size_cleaned s;
           items_cleaned := items_cleaned s;
           polls := polls s;
           disk := fs' |}.

(** Lines 257-269. *)
Definition clean_item (p : path) (size : Z) : M locals unit :=
  try_except
    (s <- get ;;
     (if os.isdir (disk s) p then
        emit (log_signal (removing_dir p) info) ;;
        call (shutil_rmtree sys p)
      else if os.isfile (disk s) p then
        emit (log_signal (removing_file p) info) ;;
        call (os_remove sys p)
      else ret tt) ;;
     modify (fun s => {| total_size_cleaned := total_size_cleaned s + size;
                         items_cleaned := items_cleaned s + 1;
                         polls := polls s;
                         disk := disk s |}))
    is_OSError
    (fun e => emit (log_signal (item_failed p e) error)).

(** Lines 250-269: [enumerate] supplies [index]. *)
Fixpoint clean_loop (items : list item) (index total_items : Z)
  : M locals unit :=
  match items with
  | [] => ret tt
  | (p, type_name, size) :: items' =>
      running <- read_running ;;
      if negb running then ret tt
      else
        emit (clean_progress_signal (index + 1) total_items p) ;;
        clean_item p size ;;
        clean_loop items' (index + 1) total_items
  end.

(** Lines 271-277. *)
Definition finish : M locals unit :=
  s <- get ;;
  emit (log_signal (clean_done (items_cleaned s) (total_size_cleaned s)) info) ;;
  let total_size_cleaned_mb :=
    (inject_Z (total_size_cleaned s) / inject_Z (1024 * 1024))%Q in
  emit (clean_finished_signal true (items_cleaned s) total_size_cleaned_mb).

(** Lines 279-281. *)
Definition on_exception (e : exn) : M locals unit :=
  s <- get ;;
  emit (log_signal (clean_failed e) error) ;;
  emit (clean_finished_signal false (items_cleaned s)
          (inject_Z (total_size_cleaned s))).

(** Lines 248-277: the body of the [try] after the counters are set. *)
Definition clean (items_to_clean : list item) : M locals unit :=
  let total_items := len items_to_clean in
  emit (log_signal clean_started info) ;;
  clean_loop items_to_clean 0 total_items ;;
  finish.

(** Lines 241-281. *)
Definition run (items_to_clean : list item) : M locals unit :=
  try_except
    (modify (fun s => {| total_size_cleaned := 0; items_cleaned := 0;
                         polls := polls s; disk := disk s |}) ;;
     clean items_to_clean)
    Exception on_exception.

End Run.

End Cleaner.

(** ** Reading a trace *)

Definition is_found (e : event) : bool :=
  match e with found_item_signal _ _ _ _ => true | _ => false end.

Definition is_read (e : event) : bool :=
  match e with running_read _ => true | _ => false end.

Definition is_log (e : event) : bool :=
  match e with log_signal _ _ => true | _ => false end.

(** A candidate as the scan announces it: the arguments of one call of
    [found_item_signal.emit]. *)
Record candidate : Type := {
  c_path : path;
  c_category : string;
  c_size : Z;
  c_preselected : bool
}.

Fixpoint candidates (t : list event) : list candidate :=
  match t with
  | [] => []
  | found_item_signal p ty sz chk :: t' =>
      {| c_path := p; c_category := ty; c_size := sz; c_preselected := chk |}
        :: candidates t'
  | _ :: t' => candidates t'
  end.

Definition count_found (t : list event) : Z := len (candidates t).

Definition found_bytes (t : list event) : Z :=
  fold_right (fun c acc => c_size c + acc) 0 (candidates t).

(** The default check mark of a candidate: off for ["venv"], on otherwise. *)
Definition default_checked (c : candidate) : bool :=
  negb (String.eqb (c_category c) "venv").

(** ** Relations between the locals before and after a piece of a worker *)

(** [c] keeps [R] between the locals it starts from, what it emits and the
    locals it ends with, whichever way it ends. *)
Definition obeys {St A} (R : St -> list event -> St -> Prop) (c : M St A)
  : Prop :=
  forall s, R s (emitted (c s)) (final (c s)).

(** The counters follow the candidates announced. *)
Definition tally (s : Scanner.locals) (t : list event) (s' : Scanner.locals)
  : Prop :=
  Scanner.total_items s' = Scanner.total_items s + count_found t
  /\ Scanner.total_size s' = Scanner.total_size s + found_bytes t
  /\ Forall (fun c => c_preselected c = default_checked c) (candidates t).

(** The flag is not read. *)
Definition silent (s : Scanner.locals) (t : list event) (s' : Scanner.locals)
  : Prop :=
  Scanner.polls s' = Scanner.polls s /\ Forall (fun e => is_read e = false) t.

(** Nothing but log lines, and the locals stay. *)
Definition logging (s : Scanner.locals) (t : list event) (s' : Scanner.locals)
  : Prop :=
  s' = s /\ Forall (fun e => is_log e = true) t.

(** The next read of the flag sees it cleared. *)
Definition halting (stop : option nat) (s : Scanner.locals) : Prop :=
  running_at stop (Scanner.polls s) = false.

(** Once a read has seen the flag cleared, [c] ends normally and announces
    nothing more. *)
Definition fair {A} (stop : option nat) (c : M Scanner.locals A) : Prop :=
  forall s,
    (Scanner.polls s <= Scanner.polls (final (c s)))%nat
    /\ (forall pre post,
          emitted (c s) = pre ++ running_read false :: post ->
          is_ok (outcome (c s)) = true
          /\ Forall (fun e => is_found e = false) post
          /\ halting stop (final (c s))).

(** [fair], and started with the flag already cleared [c] only idles. *)
Definition good {A} (stop : option nat) (c : M Scanner.locals A) : Prop :=
  fair stop c
  /\ forall s, halting stop s ->
       is_ok (outcome (c s)) = true
       /\ Forall (fun e => is_found e = false) (emitted (c s)).

(** ** Directory size, as specified *)



(** [stat] on the entry is refused. *)
Definition refused (c : node) : bool :=
  match follow c with
  | Raise PermissionError => true
  | _ => false
  end.

(** The part of a tree a size computation gets to: every listing is cut
    before its first entry that [stat] refuses. *)
Fixpoint reached (x : node) : node :=
  match x with
  | Dir es =>
      Dir ((fix cut (l : list (name * node)) : list (name * node) :=
              match l with
              | [] => []
              | (n, c) :: l' =>
                  if refused c then [] else (n, reached c) :: cut l'
              end) es)
  | Symlink target => Symlink (reached target)
  | File _ _ | Sealed | Link _ => x
  end.






Definition cut : list (name * node) -> list (name * node) :=
  fix cut (l : list (name * node)) : list (name * node) :=
    match l with
    | [] => []
    | (n, c) :: l' =>
        if refused c then [] else (n, reached c) :: cut l'
    end.



(** ** Sample inputs *)

Definition no_rule : options :=
  {| pycache := false; pyc_files := false; venv := false; venv_days := 30;
     jupyter := false; temp_files := false; build_dirs := false |}.

(** Only the [pycache] and [pyc] rules. *)
Definition bytecode_rules : options :=
  {| pycache := true; pyc_files := true; venv := false; venv_days := 30;
     jupyter := false; temp_files := false; build_dirs := false |}.

Definition build_rule_only : options :=
  {| pycache := false; pyc_files := false; venv := false; venv_days := 30;
     jupyter := false; temp_files := false; build_dirs := true |}.

Definition venv_rule_only : options :=
  {| pycache := false; pyc_files := false; venv := true; venv_days := 30;
     jupyter := false; temp_files := false; build_dirs := false |}.

Definition venv_and_pyc : options :=
  {| pycache := false; pyc_files := true; venv := true; venv_days := 30;
     jupyter := false; temp_files := false; build_dirs := false |}.

(** [proj/__pycache__/a.pyc] (10 bytes) and [proj/module.pyc] (20 bytes). *)
Definition project_tree : node :=
  Dir [("proj", Dir [("__pycache__", Dir [("a.pyc", File 10 0%Q)]);
                     ("module.pyc", File 20 0%Q)])].

(** A package directory with its build products. *)
Definition package_tree : node :=
  Dir [("pkg", Dir [("build", Dir [("lib.o", File 7 0%Q)]);
                    ("demo.egg-info", Dir [("PKG-INFO", File 5 0%Q)]);
                    ("dist", Dir [])])].

(** [work/env] is recognised as a virtual environment through
    [env/bin/activate] and has no file of its own; [work/lib] comes after it
    in the walk. *)
Definition bare_venv_tree : node :=
  Dir [("work", Dir [("env", Dir [("bin", Dir [("activate", File 100 0%Q)])]);
                     ("lib", Dir [("m.pyc", File 20 0%Q)])])].

(** A virtual environment last used at time 0. *)
Definition old_venv_tree : node :=
  Dir [("env", Dir [("pyvenv.cfg", File 100 0%Q)])].


(** A virtual environment whose [lib] directory is reached a second time
    through the link [lib64], next to a link to a file kept elsewhere. *)
Definition linked_tree : node :=
  Dir [("env", Dir [("lib", Dir [("m.pyc", File 1000 0%Q)]);
                    ("lib64", Symlink (Dir [("m.pyc", File 1000 0%Q)]));
                    ("big", Symlink (File 5000 0%Q))])].

(** [n] directories inside one another, below the first. *)
Fixpoint nested (n : nat) : node :=
  match n with
  | O => Dir []
  | S n' => Dir [("d", nested n')]
  end.

(** A directory with a file of 11 bytes and a link [loop] to itself, as it
    is seen through paths: behind [n] links, the next one fails with
    [ELOOP]. *)
Fixpoint cycle (n : nat) : node :=
  Dir [("f", File 11 0%Q);
       ("loop", match n with
                | O => Link ELOOP
                | S n' => Symlink (cycle n')
                end)].

(** Only [b.pyc] is left on the disk. *)
Definition one_left_tree : node := Dir [("b.pyc", File 20 0%Q)].

Definition two_items : list Cleaner.item :=
  [(["a.pyc"], "pyc", 10); (["b.pyc"], "pyc", 20)].

(** A broken link named like a bytecode file, after a real one. *)
Definition broken_link_tree : node :=
  Dir [("a.pyc", File 10 0%Q); ("b.pyc", Link ENOENT)].

(** A [shutil.rmtree] that gives up with a [RecursionError], which is a
    [RuntimeError] and no [OSError]. *)
Definition giving_up : deleting :=
  {| shutil_rmtree := fun _ fs => (fs, Some RuntimeError);
     os_remove := posix.remove |}.

Definition file_and_dir_tree : node :=
  Dir [("a.pyc", File 10 0%Q); ("__pycache__", Dir [("b.pyc", File 5 0%Q)])].

Definition file_then_dir : list Cleaner.item :=
  [(["a.pyc"], "pyc", 10); (["__pycache__"], "pycache", 5)].

(** The scan of the project tree from its top, and the cleaning of the two
    candidates [proj/__pycache__] and [proj/module.pyc]. *)
Definition project_scan : list event :=
  Scanner.signals project_tree bytecode_rules 0%Q None [[]].

Definition project_clean : out Cleaner.locals unit :=
  Cleaner.run posix.deleting None
    [(["proj"; "__pycache__"], "pycache", 10);
     (["proj"; "module.pyc"], "pyc", 20)]
    (Cleaner.start project_tree).

(** Cleaning [a.pyc] and [b.pyc] when only [b.pyc] is left. *)
Definition one_left_clean : out Cleaner.locals unit :=
  Cleaner.run posix.deleting None two_items (Cleaner.start one_left_tree).

(** ** What stands behind a candidate *)

(** The last component of a path: the name the rules test. *)
Definition basename (p : path) : name := last p "".

(** [p] is [root] or lies below it. *)
Definition below (root p : path) : Prop := exists rest, p = root ++ rest.

(** The rule that announces a candidate of each category, the test the name
    passed and the call that gave the size. *)
Definition justified (fs : node) (scan_options : options) (now : Q)
  (c : candidate) : Prop :=
  (c_category c = "pycache"
   /\ pycache scan_options = true
   /\ basename (c_path c) = "__pycache__"
   /\ Scanner._get_dir_size fs (c_path c) = Ok (c_size c))
  \/ (c_category c = "pyc"
      /\ pyc_files scan_options = true
      /\ endswith (basename (c_path c)) ".pyc" = true
      /\ os.getsize fs (c_path c) = Ok (c_size c))
  \/ (c_category c = "venv"
      /\ venv scan_options = true
      /\ Scanner.is_venv fs (c_path c) = true
      /\ (exists last,
            Scanner.last_access_time fs (c_path c) = Ok last
            /\ (inject_Z (venv_days scan_options)
                < (now - last) / inject_Z (60 * 60 * 24))%Q)
      /\ Scanner._get_dir_size fs (c_path c) = Ok (c_size c))
  \/ (c_category c = "jupyter"
      /\ jupyter scan_options = true
      /\ basename (c_path c) = ".ipynb_checkpoints"
      /\ Scanner._get_dir_size fs (c_path c) = Ok (c_size c))
  \/ (c_category c = "temp"
      /\ temp_files scan_options = true
      /\ (endswith (basename (c_path c)) ".pyc.tmp" = true
          \/ endswith (basename (c_path c)) ".py~" = true
          \/ endswith (basename (c_path c)) ".pyo" = true)
      /\ os.getsize fs (c_path c) = Ok (c_size c))
  \/ (c_category c = "build"
      /\ build_dirs scan_options = true
      /\ (basename (c_path c) = "build"
          \/ basename (c_path c) = "dist"
          \/ basename (c_path c) = "*.egg-info")
      /\ Scanner._get_dir_size fs (c_path c) = Ok (c_size c)).

(** Every candidate of a piece of trace satisfies [P]. *)
Definition announces (P : candidate -> Prop)
  (s : Scanner.locals) (t : list event) (s' : Scanner.locals) : Prop :=
  Forall P (candidates t).

(** The walk below the entries of one directory, by name. *)
Definition walk_entries (top : path) : list (name * node) -> list os.triple :=
  fix below (l : list (name * node)) : list os.triple :=
    match l with
    | [] => []
    | (n, c) :: l' =>
        (if os.entry_is_dir c && negb (os.islink c)
         then os.walk_node (join top n) c else [])
          ++ below l'
    end.

(** ** Progress *)

(** A progress signal carries a percentage out of 100. *)
Definition in_percent (e : event) : Prop :=
  match e with
  | progress_signal current total => 0 <= current <= 100 /\ total = 100
  | _ => True
  end.

(** The entries [os.walk] lists: what both passes of a root add up. *)
Definition entries (w : list os.triple) : Z :=
  fold_right (fun tr acc => len (snd (fst tr)) + len (snd tr) + acc) 0 w.

(** Every progress signal of a piece of trace is a percentage. *)
Definition percents (s : Scanner.locals) (t : list event)
  (s' : Scanner.locals) : Prop :=
  Forall in_percent t.

(** ** The end of a run *)

Definition is_finished (e : event) : bool :=
  match e with
  | scan_finished_signal _ _ _ | clean_finished_signal _ _ _ => true
  | _ => false
  end.

(** No finished signal in a piece of trace. *)
Definition unfinished {St : Type} (s : St) (t : list event) (s' : St) : Prop :=
  Forall (fun e => is_finished e = false) t.

(** ** Reading the trace of a clean *)

(** The items a clean started on: what its progress signals carry. *)
Fixpoint attempts (t : list event) : list (Z * Z * path) :=
  match t with
  | [] => []
  | clean_progress_signal current total p :: t' =>
      (current, total, p) :: attempts t'
  | _ :: t' => attempts t'
  end.

(** The items a clean logged a failure for. *)
Fixpoint failures (t : list event) : list path :=
  match t with
  | [] => []
  | log_signal (item_failed p _) _ :: t' => p :: failures t'
  | _ :: t' => failures t'
  end.

(** What the progress signals of a complete pass over [items] carry. *)
Fixpoint numbered (items : list Cleaner.item) (index total : Z)
  : list (Z * Z * path) :=
  match items with
  | [] => []
  | (p, _, _) :: items' => (index + 1, total, p) :: numbered items' (index + 1) total
  end.

(** A deleting back end whose calls raise nothing but [OSError]s. *)
Definition os_errors_only (sys : deleting) : Prop :=
  forall p fs e,
    snd (shutil_rmtree sys p fs) = Some e \/ snd (os_remove sys p fs) = Some e ->
    is_OSError e = true.

(** Two cleaners that have done the same work: same disk, same counters. *)
Definition same_work (s s' : Cleaner.locals) : Prop :=
  Cleaner.disk s = Cleaner.disk s'
  /\ Cleaner.items_cleaned s = Cleaner.items_cleaned s'
  /\ Cleaner.total_size_cleaned s = Cleaner.total_size_cleaned s'.

(** The loop of [rmtree_node], by name. *)
Definition rmtree_entries
  : list (name * node) -> option (list (name * node) * exn) :=
  fix each (l : list (name * node)) : option (list (name * node) * exn) :=
    match l with
    | [] => None
    | (n, c) :: l' =>
        match c with
        | Dir _ | Sealed =>
            match rmtree_node c with
            | None => each l'
            | Some (c', e) => Some ((n, c') :: l', e)
            end
        | File _ _ | Link _ | Symlink _ => each l'
        end
    end.


(** ** Formatting a size *)

(** [str] of an [int]. *)
Definition str (z : Z) : string :=
  DecimalString.NilZero.string_of_int (Z.to_int z).

Definition two_digits (d : Z) : string :=
  if d <? 10 then "0" ++ str d else str d.

(** The text of a number of hundredths: ["12.34"] for 1234. *)
Definition hundredths_text (h : Z) : string :=
  str (h / 100) ++ "." ++ two_digits (h mod 100).

(** [f"{x:.2f}"] for a float [x] that is not negative: the decimal
    expansion of the float, which is exact, rounded to two digits with a tie
    going to the even one. *)
Definition fixed2 (x : Q) : string :=
  hundredths_text (round_half_even (x * 100)).

(** [_format_size], lines 216-225 (and again, word for word, at lines
    283-292 and 796-805). *)
Definition _format_size (size_bytes : Z) : string :=
  if size_bytes <? 1024 then
    str size_bytes ++ " B"
  else if size_bytes <? 1024 * 1024 then
    fixed2 (true_divide size_bytes 1024) ++ " KB"
  else if size_bytes <? 1024 * 1024 * 1024 then
    fixed2 (true_divide size_bytes (1024 * 1024)) ++ " MB"
  else
    fixed2 (true_divide size_bytes (1024 * 1024 * 1024)) ++ " GB".

(** ** class PythonCleanerUI: the results and the two finished slots *)

Module PythonCleanerUI.

(** A top-level item of [results_tree], with what [add_found_item] stores in
    it and the code reads back: the check box of column 0, the path text of
    column 1, the size text of column 3, and the user data of columns 2 and
    3.  (The display name of column 2 is written and never read.) *)
Record tree_item : Type := {
  checkState : bool;
  text1 : path;
  text3 : string;
  data2 : string;
  data3 : Z
}.

Record results : Type := {
  results_tree : list tree_item;
  found_items : list (path * string * Z)
}.

(** Lines 581-582 of [start_scan]. *)
Definition cleared : results := {| results_tree := []; found_items := [] |}.

(** Lines 642-672, the slot of [found_item_signal]. *)
Definition add_found_item (p : path) (type_name : string) (size : Z)
  (checked : bool) (w : results) : results :=
  {| results_tree :=
       results_tree w
       ++ [{| checkState := checked; text1 := p;
              text3 := _format_size size;
              data2 := type_name; data3 := size |}];
     found_items := found_items w ++ [(p, type_name, size)] |}.

(** The signals of a worker reach their slots in the order they were
    emitted; only [found_item_signal] touches the results.  Its size is an
    [int] argument (line 34), so the slot is called with [c_int] of what
    the worker passed to [emit]. *)
Definition receive (t : list event) (w : results) : results :=
  fold_left (fun w e =>
               match e with
               | found_item_signal p type_name size checked =>
                   add_found_item p type_name (c_int size) checked w
               | _ => w
               end) t w.

Definition setCheckState (state : bool) (i : tree_item) : tree_item :=
  {| checkState := state; text1 := text1 i; text3 := text3 i;
     data2 := data2 i; data3 := data3 i |}.

(** Lines 705-709 and 711-715. *)
Definition select_all_items (w : results) : results :=
  {| results_tree := map (setCheckState true) (results_tree w);
     found_items := found_items w |}.

Definition deselect_all_items (w : results) : results :=
  {| results_tree := map (setCheckState false) (results_tree w);
     found_items := found_items w |}.

(** Lines 720-728. *)
Fixpoint checked_items (tree : list tree_item) : list Cleaner.item :=
  match tree with
  | [] => []
  | i :: tree' =>
      if checkState i then (text1 i, data2 i, data3 i) :: checked_items tree'
      else checked_items tree'
  end.

(** What [clean_selected_items] comes to, lines 717-754: a warning that
    nothing is selected, nothing at all when the question is answered with
    No, or a [Cleaner] started on the selected items. *)
Inductive request : Type :=
| nothing_selected
| declined
| cleaner_started (items_to_clean : list Cleaner.item).

Definition clean_selected_items (reply_yes : bool) (w : results) : request :=
  match checked_items (results_tree w) with
  | [] => nothing_selected
  | items_to_clean =>
      if reply_yes then cleaner_started items_to_clean else declined
  end.

(** The log line of [on_scan_finished]: lines 688, 690 and 692. *)
Inductive scan_note : Type :=
| nothing_found
| scan_complete (count : Z)
| scan_incomplete.

(** Lines 674-692, the slot of [scan_finished_signal], called with an [int]
    and a float: whether [reset_scan_ui] enables the clean and select
    buttons, the count and size text written to the statistics label if it
    is written, and the log line. *)
Definition on_scan_finished (success : bool) (count : Z) (total_size_mb : Q)
  (w : results) : bool * option (Z * string) * scan_note :=
  let enable := match found_items w with [] => false | _ :: _ => true end in
  if success then
    let total_size := int_ (fmul (fmul total_size_mb 1024) 1024) in
    (enable, Some (count, _format_size total_size),
     if count =? 0 then nothing_found else scan_complete count)
  else (enable, None, scan_incomplete).

(** What [on_scan_finished] is called with when the worker has passed
    [count] and [size] to [scan_finished_signal.emit]: the signal is
    declared with an [int] and a float (line 35). *)
Definition scan_finished_slot (success : bool) (count : Z) (size : Q)
  (w : results) : bool * option (Z * string) * scan_note :=
  on_scan_finished success (c_int count) (double size) w.

(** Lines 699-703: the percentage [update_clean_progress] shows. *)
Definition clean_percent (current total : Z) : Z :=
  if 0 <? total
  then int_ (fmul (true_divide current total) 100)
  else 0.

End PythonCleanerUI.

(** A candidate as the window stores it, and as an entry of
    [items_to_clean]: the size has come through the signal. *)
Definition item_of (c : candidate) : Cleaner.item :=
  (c_path c, c_category c, c_int (c_size c)).

(** ** What a scan that succeeds has announced *)

(** The signal that announces [p] in category [type_name], whatever the
    size. *)
Definition announcing (p : path) (type_name : string) (e : event) : Prop :=
  exists size, e = found_item_signal p type_name size true.

(** If [c] ends normally, it has emitted a signal that satisfies [P]. *)
Definition reports {A} (P : event -> Prop) (c : M Scanner.locals A) : Prop :=
  forall s, is_ok (outcome (c s)) = true -> Exists P (emitted (c s)).

(** The names of one directory level that an enabled rule matches, with the
    path and the category of the candidate each one is owed. *)
Definition owed (scan_options : options) (root : path)
  (dirs files : list name) (p : path) (ty : string) : Prop :=
  (pycache scan_options = true /\ ty = "pycache"
   /\ exists d, In d dirs /\ d = "__pycache__" /\ p = join root d)
  \/ (pyc_files scan_options = true /\ ty = "pyc"
      /\ exists f, In f files /\ endswith f ".pyc" = true /\ p = join root f)
  \/ (jupyter scan_options = true /\ ty = "jupyter"
      /\ exists d, In d dirs /\ d = ".ipynb_checkpoints" /\ p = join root d)
  \/ (temp_files scan_options = true /\ ty = "temp"
      /\ exists f, In f files
           /\ (endswith f ".pyc.tmp" = true \/ endswith f ".py~" = true
               \/ endswith f ".pyo" = true)
           /\ p = join root f)
  \/ (build_dirs scan_options = true /\ ty = "build"
      /\ exists d, In d dirs
           /\ (d = "build" \/ d = "dist" \/ d = "*.egg-info")
           /\ p = join root d).

(** ** Scanning twice *)

(** The verdict of the venv rule on a directory with a marker when the clock
    reads [now]: whether the newest of its files is older than the
    threshold.  (Where [max] raises, the rule gets to no verdict.) *)
Definition stale (fs : node) (scan_options : options) (now : Q) (root : path)
  : bool :=
  match Scanner.last_access_time fs root with
  | Ok last =>
      negb (Qle_bool ((now - last) / inject_Z (60 * 60 * 24))
                     (inject_Z (venv_days scan_options)))
  | Raise _ => false
  end.

(** Two clock readings lead the venv rule to the same verdict on [root]:
    the rule is off, or [root] has no marker, or the verdicts are equal. *)
Definition same_verdict (fs : node) (scan_options : options) (now1 now2 : Q)
  (root : path) : bool :=
  implb (venv scan_options && Scanner.is_venv fs root)
        (Bool.eqb (stale fs scan_options now1 root)
                  (stale fs scan_options now2 root)).

(** The same for every directory that a walk of the existing roots lists. *)
Definition same_verdicts (fs : node) (scan_options : options) (now1 now2 : Q)
  (paths : list path) : bool :=
  forallb (fun base =>
             forallb (fun tr : os.triple =>
                        same_verdict fs scan_options now1 now2 (fst (fst tr)))
                     (os.walk fs base))
          (filter (os.exists_ fs) paths).

(** * Properties *)

(** ** The model at work *)

Example walk_project_tree :
  os.walk project_tree [] =
    [([], ["proj"], []);
     (["proj"], ["__pycache__"], ["module.pyc"]);
     (["proj"; "__pycache__"], [], ["a.pyc"])].
Proof. reflexivity. Qed.

Example walk_lists_a_link_and_stays_out :
  os.walk linked_tree [] =
    [([], ["env"], []);
     (["env"], ["lib"; "lib64"], ["big"]);
     (["env"; "lib"], [], ["m.pyc"])]
  /\ os.isdir linked_tree ["env"; "lib64"] = true
  /\ os.getsize linked_tree ["env"; "big"] = Ok 5000
  /\ os.getsize linked_tree ["env"; "lib64"; "m.pyc"] = Ok 1000.
Proof. repeat split. Qed.

(** 999 calls of [_get_dir_size] nest, and no more: the next one raises
    [RecursionError], which ends the scan. *)
Example recursion_limit_is_met :
  Scanner._get_dir_size (nested 998) [] = Ok 0
  /\ Scanner._get_dir_size (nested 999) [] = Raise RuntimeError
  /\ last (Scanner.signals (Dir [("__pycache__", nested 999)]) bytecode_rules
             0%Q None [[]])
          (running_read true) =
       scan_finished_signal false 0 0%Q.
Proof. repeat split; vm_compute; reflexivity. Qed.

(** A link to the directory it lies in: the size computation follows it 40
    times and ends with the [OSError] of the 41st, while the walk lists the
    link and stays out. *)
Example link_cycle_ends_in_eloop :
  Scanner._get_dir_size (cycle 40) [] = Raise OSError
  /\ os.walk (cycle 40) [] = [([], ["loop"], ["f"])].
Proof. repeat split; vm_compute; reflexivity. Qed.

(** A link is refused by [rmtree] and unlinked by [remove]. *)
Example deleting_a_link :
  posix.rmtree ["env"; "lib64"] linked_tree = (linked_tree, Some OSError)
  /\ os.exists_ (fst (posix.remove ["env"; "big"] linked_tree))
                ["env"; "big"] = false
  /\ snd (posix.remove ["env"; "big"] linked_tree) = None.
Proof. repeat split; vm_compute; reflexivity. Qed.

(** The floats of [int(58 / 100 * 100)] and of a size beyond [2^53]. *)
Example floats_round :
  int_ (fmul (true_divide 58 100) 100) = 57
  /\ _format_size 9007199388958721 = "8388608.12 GB"
  /\ int_ (fmul (fmul (true_divide 9007199388958721 (1024 * 1024)) 1024)
                1024) = 9007199388958720
  /\ c_int 3221225472 = -1073741824.
Proof. repeat split; vm_compute; reflexivity. Qed.

Example endswith_pyc :
  endswith "module.pyc" ".pyc" = true
  /\ endswith "pyc" ".pyc" = false
  /\ endswith "module.pyc.tmp" ".pyc" = false.
Proof. repeat split. Qed.

Example rmtree_stops_at_sealed :
  rmtree_node (Dir [("a", File 1 0%Q); ("b", Sealed); ("c", File 2 0%Q)]) =
    Some (Dir [("b", Sealed); ("c", File 2 0%Q)], PermissionError).
Proof. reflexivity. Qed.

(** ** Floats *)

Lemma round_half_even_comp x y :
  (x == y)%Q -> round_half_even x = round_half_even y.
Proof.
  intros E. unfold round_half_even.
  rewrite (Qfloor_comp _ _ E).
  assert (C : ((x - inject_Z (Qfloor y) ?= 1 # 2) =
               (y - inject_Z (Qfloor y) ?= 1 # 2))%Q).
  { apply Qcompare_comp; [rewrite E|]; reflexivity. }
  rewrite C. reflexivity.
Qed.

Lemma round_half_even_Z z : round_half_even (inject_Z z) = z.
Proof.
  unfold round_half_even. rewrite Qfloor_Z.
  assert (C : ((inject_Z z - inject_Z z ?= 1 # 2) = Lt)%Q).
  { apply Qlt_alt.
    setoid_replace (inject_Z z - inject_Z z)%Q with 0%Q by ring.
    reflexivity. }
  rewrite C. reflexivity.
Qed.

Lemma two_nonzero : ~ (2 == 0)%Q.
Proof. discriminate. Qed.

Lemma pow2_pos k : (0 < 2 ^ k)%Q.
Proof. apply Qpower_0_lt. reflexivity. Qed.

Lemma pow2_Z k : 0 <= k -> (inject_Z (2 ^ k) == 2 ^ k)%Q.
Proof. intros H. apply (Zpower_Qpower 2 k H). Qed.

(** The binade of a rational that is not zero is at or below it. *)
Lemma binade_le q : ~ (q == 0)%Q -> (2 ^ binade q <= Qabs q)%Q.
Proof.
  intros Hq. unfold binade.
  set (n := Z.abs (Qnum q)). set (d := Z.pos (Qden q)).
  destruct (Qle_bool (2 ^ (Z.log2 n - Z.log2 d)) (Qabs q)) eqn:E.
  - apply Qle_bool_iff, E.
  - assert (Hn : 0 < n).
    { unfold n. destruct q as [[|p|p] dq]; simpl; try lia.
      exfalso. apply Hq. reflexivity. }
    assert (Hd : 0 < d) by (unfold d; lia).
    pose proof (Z.log2_spec n Hn) as [Ln _].
    pose proof (Z.log2_spec d Hd) as [_ Ld].
    pose proof (Z.log2_nonneg n) as Nn.
    pose proof (Z.log2_nonneg d) as Nd.
    (* 2^(a-b-1) * d <= 2^(a-b-1) * 2^(b+1) = 2^a <= n *)
    assert (A : (2 ^ (Z.log2 n - Z.log2 d - 1) * inject_Z d <= inject_Z n)%Q).
    { apply Qle_trans with (2 ^ (Z.log2 n - Z.log2 d - 1)
                            * inject_Z (2 ^ Z.succ (Z.log2 d)))%Q.
      - apply Qmult_le_l; [apply pow2_pos|].
        rewrite <- Zle_Qle. lia.
      - rewrite pow2_Z by lia.
        rewrite <- Qpower_plus by apply two_nonzero.
        replace (Z.log2 n - Z.log2 d - 1 + Z.succ (Z.log2 d)) with (Z.log2 n)
          by lia.
        rewrite <- pow2_Z by lia. rewrite <- Zle_Qle. exact Ln. }
    assert (Q : (Qabs q == inject_Z n / inject_Z d)%Q).
    { unfold n, d. destruct q as [nq dq]. unfold Qabs. cbn [Qnum Qden].
      rewrite (Qmake_Qdiv (Z.abs nq) dq). reflexivity. }
    rewrite Q. apply Qle_shift_div_l; [|exact A].
    change 0%Q with (inject_Z 0). rewrite <- Zlt_Qlt. exact Hd.
Qed.

(** A number with a significand of 53 bits is its own float. *)
Lemma double_exact q m k :
  Z.abs m < 2 ^ 53 -> (q == inject_Z m * 2 ^ k)%Q -> (double q == q)%Q.
Proof.
  intros Hm Hq. unfold double.
  destruct (Qeq_bool q 0) eqn:E0.
  - apply Qeq_bool_iff in E0. rewrite E0. reflexivity.
  - assert (Hq0 : ~ (q == 0)%Q).
    { intros H. apply Qeq_bool_iff in H. congruence. }
    cbv zeta. set (e := binade q).
    assert (He : e - 52 <= k).
    { pose proof (binade_le q Hq0) as B. fold e in B.
      assert (U : (Qabs q < 2 ^ (53 + k))%Q).
      { rewrite Hq, Qabs_Qmult.
        rewrite (Qabs_pos (2 ^ k)) by (apply Qlt_le_weak, pow2_pos).
        rewrite Qpower_plus by apply two_nonzero.
        apply Qmult_lt_compat_r; [apply pow2_pos|].
        rewrite <- pow2_Z by lia.
        assert (A : (Qabs (inject_Z m) == inject_Z (Z.abs m))%Q)
          by reflexivity.
        rewrite A. rewrite <- Zlt_Qlt. exact Hm. }
      assert (L : (2 ^ e < 2 ^ (53 + k))%Q)
        by (eapply Qle_lt_trans; eassumption).
      apply Qpower_lt_compat_l_inv in L; [lia | reflexivity]. }
    assert (D : (q / 2 ^ (e - 52) == inject_Z (m * 2 ^ (k - (e - 52))))%Q).
    { rewrite Hq, inject_Z_mult, pow2_Z by lia.
      rewrite (Qpower_minus 2 k (e - 52)) by apply two_nonzero.
      field. apply Qpower_not_0, two_nonzero. }
    rewrite (round_half_even_comp _ _ D), round_half_even_Z.
    rewrite Hq, inject_Z_mult, pow2_Z by lia.
    rewrite (Qpower_minus 2 k (e - 52)) by apply two_nonzero.
    field. apply Qpower_not_0, two_nonzero.
Qed.

Lemma int_of_Z x z : (x == inject_Z z)%Q -> int_ x = z.
Proof.
  unfold int_, Qeq. cbn [Qnum Qden inject_Z]. intros H.
  rewrite Z.mul_1_r in H. rewrite H. apply Z.quot_mul. discriminate.
Qed.

Lemma round_half_even_le q n : (q <= inject_Z n)%Q -> round_half_even q <= n.
Proof.
  intros H. unfold round_half_even.
  pose proof (Qfloor_le q) as L.
  assert (F : Qfloor q <= n).
  { rewrite Zle_Qle. eapply Qle_trans; eassumption. }
  assert (C : Qfloor q < n \/ Qfloor q = n) by lia.
  destruct C as [C|C]; [destruct (_ ?= _)%Q; [destruct (Z.even _)| |]; lia|].
  assert (E : (q - inject_Z (Qfloor q) ?= 1 # 2)%Q = Lt).
  { rewrite C in *. apply (proj1 (Qlt_alt _ _)). Lqa.lra. }
  rewrite E. lia.
Qed.

Lemma round_half_even_ge q n : (inject_Z n <= q)%Q -> n <= round_half_even q.
Proof.
  intros H. unfold round_half_even.
  assert (F : n <= Qfloor q).
  { rewrite <- (Qfloor_Z n). apply Qfloor_resp_le, H. }
  destruct (_ ?= _)%Q; [destruct (Z.even _)| |]; lia.
Qed.

Lemma double_nonneg q : (0 <= q)%Q -> (0 <= double q)%Q.
Proof.
  intros H. unfold double. destruct (Qeq_bool q 0); [apply Qle_refl|].
  cbv zeta. apply Qmult_le_0_compat; [|apply Qlt_le_weak, pow2_pos].
  change 0%Q with (inject_Z 0). rewrite <- Zle_Qle.
  apply round_half_even_ge. change (inject_Z 0) with 0%Q.
  apply Qle_shift_div_l; [apply pow2_pos|]. rewrite Qmult_0_l. exact H.
Qed.

(** Rounding does not carry a number past a float above it. *)
Lemma double_le q r m k :
  Z.abs m < 2 ^ 53 -> (r == inject_Z m * 2 ^ k)%Q ->
  (0 <= q)%Q -> (q <= r)%Q -> (double q <= r)%Q.
Proof.
  intros Hm Hr H0 Hq. unfold double.
  destruct (Qeq_bool q 0) eqn:E0.
  - eapply Qle_trans; eassumption.
  - assert (Hq0 : ~ (q == 0)%Q).
    { intros H. apply Qeq_bool_iff in H. congruence. }
    cbv zeta. set (e := binade q).
    assert (He : e - 52 <= k).
    { pose proof (binade_le q Hq0) as B. fold e in B.
      rewrite (Qabs_pos q H0) in B.
      assert (U : (r < 2 ^ (53 + k))%Q).
      { rewrite Hr. rewrite Qpower_plus by apply two_nonzero.
        apply Qmult_lt_compat_r; [apply pow2_pos|].
        rewrite <- pow2_Z by lia. rewrite <- Zlt_Qlt. lia. }
      assert (L : (2 ^ e < 2 ^ (53 + k))%Q).
      { eapply Qle_lt_trans; [|exact U]. eapply Qle_trans; eassumption. }
      apply Qpower_lt_compat_l_inv in L; [lia | reflexivity]. }
    assert (D : (r == inject_Z (m * 2 ^ (k - (e - 52))) * 2 ^ (e - 52))%Q).
    { rewrite Hr, inject_Z_mult, pow2_Z by lia.
      rewrite (Qpower_minus 2 k (e - 52)) by apply two_nonzero.
      field. apply Qpower_not_0, two_nonzero. }
    rewrite D. apply Qmult_le_compat_r; [|apply Qlt_le_weak, pow2_pos].
    rewrite <- Zle_Qle. apply round_half_even_le.
    apply Qle_shift_div_r; [apply pow2_pos|]. rewrite <- D. exact Hq.
Qed.

Lemma int_range y n : (0 <= y)%Q -> (y <= inject_Z n)%Q -> 0 <= int_ y <= n.
Proof.
  intros H0 H. assert (E : int_ y = Qfloor y).
  { destruct y as [a d]. unfold Qle in H0. unfold int_, Qfloor.
    cbn [Qnum Qden] in *. apply Z.quot_div_nonneg; lia. }
  rewrite E. split.
  - rewrite <- (Qfloor_Z 0). apply Qfloor_resp_le, H0.
  - rewrite <- (Qfloor_Z n). apply Qfloor_resp_le, H.
Qed.

(** [int((current / total) * 100)] for [0 <= current <= total]. *)
Lemma percent_range current total :
  0 <= current <= total -> 0 < total ->
  0 <= int_ (fmul (true_divide current total) 100) <= 100
  /\ (current = total -> int_ (fmul (true_divide current total) 100) = 100).
Proof.
  intros H Ht. unfold fmul, true_divide.
  assert (Hpos : (0 < inject_Z total)%Q).
  { change (inject_Z 0 < inject_Z total)%Q. rewrite <- Zlt_Qlt. exact Ht. }
  set (q := (inject_Z current / inject_Z total)%Q).
  assert (Q0 : (0 <= q)%Q).
  { apply Qle_shift_div_l; [exact Hpos|]. rewrite Qmult_0_l.
    change 0%Q with (inject_Z 0). rewrite <- Zle_Qle. lia. }
  assert (Q1 : (q <= 1)%Q).
  { apply Qle_shift_div_r; [exact Hpos|]. rewrite Qmult_1_l.
    rewrite <- Zle_Qle. lia. }
  pose proof (double_nonneg q Q0) as X0.
  assert (X1 : (double q <= 1)%Q).
  { apply (double_le q 1 1 0); try assumption; [reflexivity | reflexivity]. }
  assert (Y0 : (0 <= double q * 100)%Q)
    by (apply Qmult_le_0_compat; [exact X0 | discriminate]).
  assert (Y1 : (double q * 100 <= inject_Z 100)%Q).
  { change (inject_Z 100) with (1 * 100)%Q.
    apply Qmult_le_compat_r; [exact X1 | discriminate]. }
  split.
  - apply int_range; [apply double_nonneg, Y0|].
    apply (double_le _ (inject_Z 100) 100 0); try assumption;
      [reflexivity | reflexivity].
  - intros ->. apply int_of_Z.
    assert (E1 : (q == inject_Z 1 * 2 ^ 0)%Q).
    { unfold q. change (inject_Z 1 * 2 ^ 0)%Q with (1 * 1)%Q. field.
      intros Z0. rewrite Z0 in Hpos. apply (Qlt_irrefl 0), Hpos. }
    assert (D1 : (double q == 1)%Q).
    { rewrite (double_exact q 1 0 ltac:(reflexivity) E1), E1. reflexivity. }
    assert (E2 : (double q * 100 == inject_Z 100 * 2 ^ 0)%Q).
    { rewrite D1. reflexivity. }
    rewrite (double_exact _ 100 0 ltac:(reflexivity) E2), E2. reflexivity.
Qed.

Lemma true_divide_exact size k :
  0 <= k -> Z.abs size < 2 ^ 53 ->
  (true_divide size (2 ^ k) == inject_Z size / inject_Z (2 ^ k))%Q.
Proof.
  intros Hk Hs. unfold true_divide. apply (double_exact _ size (- k) Hs).
  rewrite pow2_Z, Qpower_opp by exact Hk. reflexivity.
Qed.

Lemma fixed2_comp x y : (x == y)%Q -> fixed2 x = fixed2 y.
Proof.
  intros E. unfold fixed2. f_equal. apply round_half_even_comp.
  rewrite E. reflexivity.
Qed.

(** Below [2^53] bytes the three quotients of [_format_size] are exact. *)
Lemma fixed2_units size :
  Z.abs size < 2 ^ 53 ->
  fixed2 (true_divide size 1024) = fixed2 (inject_Z size / inject_Z 1024)
  /\ fixed2 (true_divide size (1024 * 1024)) =
       fixed2 (inject_Z size / inject_Z (1024 * 1024))
  /\ fixed2 (true_divide size (1024 * 1024 * 1024)) =
       fixed2 (inject_Z size / inject_Z (1024 * 1024 * 1024)).
Proof.
  intros H. repeat split; apply fixed2_comp.
  - apply (true_divide_exact size 10); [lia | exact H].
  - apply (true_divide_exact size 20); [lia | exact H].
  - apply (true_divide_exact size 30); [lia | exact H].
Qed.

Lemma c_int_fits z : - 2 ^ 31 <= z < 2 ^ 31 -> c_int z = z.
Proof.
  intros H. unfold c_int. rewrite Z.mod_small by lia. lia.
Qed.

(** ** The worker monad *)

Lemma bind_ok {St A B} (c : M St A) (f : A -> M St B) s a :
  outcome (c s) = Ok a ->
  bind c f s = Out (emitted (c s) ++ emitted (f a (final (c s))))
                   (outcome (f a (final (c s)))) (final (f a (final (c s)))).
Proof. intros H. unfold bind. rewrite H. reflexivity. Qed.

Lemma bind_raise {St A B} (c : M St A) (f : A -> M St B) s e :
  outcome (c s) = Raise e ->
  bind c f s = Out (emitted (c s)) (Raise e) (final (c s)).
Proof. intros H. unfold bind. rewrite H. reflexivity. Qed.

Lemma bind_ext {St A B} (c c' : M St A) (f f' : A -> M St B) s :
  c s = c' s -> (forall a s1, f a s1 = f' a s1) -> bind c f s = bind c' f' s.
Proof.
  intros Hc Hf. unfold bind. rewrite Hc.
  destruct (outcome (c' s)); [rewrite Hf|]; reflexivity.
Qed.

Lemma for_each_ext {St A} (l : list A) (body body' : A -> M St unit) :
  (forall x s, body x s = body' x s) ->
  forall s, for_each l body s = for_each l body' s.
Proof.
  intros H. induction l as [|x l IH]; intros s; simpl.
  - reflexivity.
  - apply bind_ext; auto.
Qed.

Section Compositional.

Context {St : Type}.
Variable R : St -> list event -> St -> Prop.
Hypothesis R_nil : forall s, R s [] s.
Hypothesis R_app :
  forall s t1 s1 t2 s2, R s t1 s1 -> R s1 t2 s2 -> R s (t1 ++ t2) s2.

Lemma obeys_ret {A} (a : A) : obeys R (ret a).
Proof. intros s. apply R_nil. Qed.

Lemma obeys_raise {A} e : obeys R (@raise St A e).
Proof. intros s. apply R_nil. Qed.

Lemma obeys_lift {A} (r : result A) : obeys R (lift r).
Proof. intros s. apply R_nil. Qed.

Lemma obeys_get : obeys R get.
Proof. intros s. apply R_nil. Qed.

Lemma obeys_bind {A B} (c : M St A) (f : A -> M St B) :
  obeys R c -> (forall a, obeys R (f a)) -> obeys R (bind c f).
Proof.
  intros Hc Hf s. unfold bind.
  destruct (outcome (c s)) as [a|e]; simpl.
  - eapply R_app; [apply Hc | apply Hf].
  - apply Hc.
Qed.

Lemma obeys_try_except {A} (c : M St A) classes h :
  obeys R c -> (forall e, obeys R (h e)) -> obeys R (try_except c classes h).
Proof.
  intros Hc Hh s. unfold try_except.
  destruct (outcome (c s)) as [a|e]; [apply Hc|].
  destruct (classes e); simpl; [|apply Hc].
  eapply R_app; [apply Hc | apply Hh].
Qed.

Lemma obeys_for_each {A} (l : list A) body :
  (forall x, obeys R (body x)) -> obeys R (for_each l body).
Proof.
  intros Hb. induction l as [|x l IH]; simpl.
  - apply obeys_ret.
  - apply obeys_bind; auto.
Qed.

Lemma obeys_emit e : (forall s, R s [e] s) -> obeys R (emit e).
Proof. intros H s. apply H. Qed.

End Compositional.

(** ** Traces *)

Lemma candidates_app t1 t2 :
  candidates (t1 ++ t2) = candidates t1 ++ candidates t2.
Proof.
  induction t1 as [|e t1 IH]; simpl; [reflexivity|].
  destruct e; simpl; rewrite ?IH; reflexivity.
Qed.

Lemma count_found_app t1 t2 :
  count_found (t1 ++ t2) = count_found t1 + count_found t2.
Proof.
  unfold count_found, len. rewrite candidates_app, length_app. lia.
Qed.

Lemma found_bytes_app t1 t2 :
  found_bytes (t1 ++ t2) = found_bytes t1 + found_bytes t2.
Proof.
  unfold found_bytes. rewrite candidates_app.
  induction (candidates t1) as [|c l IH]; simpl; lia.
Qed.

Lemma candidates_idle t :
  Forall (fun e => is_found e = false) t -> candidates t = [].
Proof.
  induction 1 as [|e t He _ IH]; simpl; [reflexivity|].
  destruct e; simpl in *; try assumption. discriminate.
Qed.

Lemma log_is_idle t :
  Forall (fun e => is_log e = true) t -> Forall (fun e => is_found e = false) t.
Proof.
  apply Forall_impl. intros e; destruct e; simpl; congruence.
Qed.

Lemma log_is_silent t :
  Forall (fun e => is_log e = true) t -> Forall (fun e => is_read e = false) t.
Proof.
  apply Forall_impl. intros e; destruct e; simpl; congruence.
Qed.

(** Where a read of the cleared flag sits in a trace made of two parts. *)
Lemma split_at_read (t1 t2 pre post : list event) x :
  t1 ++ t2 = pre ++ x :: post ->
  (exists post1, t1 = pre ++ x :: post1 /\ post = post1 ++ t2)
  \/ (exists pre2, t2 = pre2 ++ x :: post /\ pre = t1 ++ pre2).
Proof.
  revert pre. induction t1 as [|e t1 IH]; intros pre H; simpl in H.
  - right. exists pre. split; [assumption | reflexivity].
  - destruct pre as [|e' pre]; simpl in H; injection H as -> H.
    + left. exists t1. split; [reflexivity | congruence].
    + destruct (IH _ H) as [(post1 & -> & ->) | (pre2 & -> & ->)].
      * left. exists post1. split; reflexivity.
      * right. exists pre2. split; reflexivity.
Qed.

Lemma silent_has_no_read (t pre post : list event) b :
  Forall (fun e => is_read e = false) t -> t <> pre ++ running_read b :: post.
Proof.
  intros H ->. apply Forall_app in H as [_ H].
  inversion H; subst. discriminate.
Qed.

(** ** The three relations compose *)

Lemma tally_nil s : tally s [] s.
Proof. unfold tally, count_found, found_bytes, len; simpl. repeat split; auto; lia. Qed.

Lemma tally_app s t1 s1 t2 s2 :
  tally s t1 s1 -> tally s1 t2 s2 -> tally s (t1 ++ t2) s2.
Proof.
  intros (A1 & B1 & C1) (A2 & B2 & C2). unfold tally.
  rewrite count_found_app, found_bytes_app, candidates_app.
  repeat split; [lia | lia | apply Forall_app; auto].
Qed.

Lemma silent_nil s : silent s [] s.
Proof. split; auto. Qed.

Lemma silent_app s t1 s1 t2 s2 :
  silent s t1 s1 -> silent s1 t2 s2 -> silent s (t1 ++ t2) s2.
Proof.
  intros (A1 & B1) (A2 & B2). split; [congruence | apply Forall_app; auto].
Qed.

Lemma logging_nil s : logging s [] s.
Proof. split; auto. Qed.

Lemma logging_app s t1 s1 t2 s2 :
  logging s t1 s1 -> logging s1 t2 s2 -> logging s (t1 ++ t2) s2.
Proof.
  intros (A1 & B1) (A2 & B2). split; [congruence | apply Forall_app; auto].
Qed.

Create HintDb scan.
#[local] Hint Resolve tally_nil tally_app silent_nil silent_app
  logging_nil logging_app : scan.

(** A tactic for goals [obeys R c] where [c] is written with the
    combinators: it walks the structure of [c]. *)
Ltac walk :=
  repeat first
    [ solve [eauto with scan]
    | match goal with
      | |- forall _, _ => intro
      | |- obeys _ (if ?b then _ else _) => destruct b
      | |- obeys _ (bind _ _) => apply obeys_bind
      | |- obeys _ (for_each _ _) => apply obeys_for_each
      | |- obeys _ (ret _) => apply obeys_ret
      | |- obeys _ (lift _) => apply obeys_lift
      | |- obeys _ get => apply obeys_get
      end ].

(** ** The scanner's pieces *)

Section ScannerFacts.

Variable fs : node.
Variable scan_options : options.
Variable now : Q.
Variable stop : option nat.

Lemma found_tally p ty sz chk :
  chk = negb (String.eqb ty "venv") ->
  obeys tally (Scanner.found p ty sz chk).
Proof.
  intros -> s. unfold Scanner.found, bind, modify, emit, tally,
    count_found, found_bytes, len, default_checked; simpl.
  repeat split; try lia. constructor; [reflexivity | constructor].
Qed.

Lemma found_silent p ty sz chk : obeys silent (Scanner.found p ty sz chk).
Proof.
  intros s. split; simpl; auto.
Qed.

Lemma inspect_tally root dirs files :
  obeys tally (Scanner.inspect fs scan_options now root dirs files).
Proof.
  unfold Scanner.inspect, Scanner.pycache_rule, Scanner.pyc_rule,
    Scanner.venv_rule, Scanner.jupyter_rule, Scanner.temp_rule,
    Scanner.build_rule.
  walk; apply found_tally; reflexivity.
Qed.

Lemma inspect_silent root dirs files :
  obeys silent (Scanner.inspect fs scan_options now root dirs files).
Proof.
  unfold Scanner.inspect, Scanner.pycache_rule, Scanner.pyc_rule,
    Scanner.venv_rule, Scanner.jupyter_rule, Scanner.temp_rule,
    Scanner.build_rule.
  walk; apply found_silent.
Qed.

End ScannerFacts.

Section ScannerLoops.

Variable fs : node.
Variable scan_options : options.
Variable now : Q.
Variable stop : option nat.

#[local] Abbreviation read_running := (Scanner.read_running stop).
#[local] Abbreviation count_pass := (Scanner.count_pass stop).
#[local] Abbreviation scan_pass := (Scanner.scan_pass fs scan_options now stop).
#[local] Abbreviation scan_base := (Scanner.scan_base fs scan_options now stop).
#[local] Abbreviation check_paths := (Scanner.check_paths fs).
#[local] Abbreviation scan := (Scanner.scan fs scan_options now stop).

Lemma read_running_tally : obeys tally read_running.
Proof.
  intros s. unfold tally, count_found, found_bytes, len; simpl.
  repeat split; try lia. constructor.
Qed.

Lemma count_pass_tally w n : obeys tally (count_pass w n).
Proof.
  revert n. induction w as [|[[root dirs] files] w IH]; intros n; simpl.
  - walk.
  - apply obeys_bind; eauto with scan; [apply read_running_tally|].
    intros []; simpl; walk.
Qed.

Lemma progress_tally a b : obeys tally (emit (progress_signal a b)).
Proof. intros s. apply tally_nil. Qed.

Lemma log_tally m l : obeys tally (emit (log_signal m l)).
Proof. intros s. apply tally_nil. Qed.

Lemma finished_tally ok n sz :
  obeys tally (emit (scan_finished_signal ok n sz)).
Proof. intros s. apply tally_nil. Qed.

#[local] Hint Resolve read_running_tally count_pass_tally progress_tally log_tally
  finished_tally inspect_tally : scan.

Lemma scan_pass_tally w n m : obeys tally (scan_pass w n m).
Proof.
  revert m. induction w as [|[[root dirs] files] w IH]; intros m; simpl.
  - walk.
  - apply obeys_bind; eauto with scan.
    intros []; simpl; walk.
Qed.

#[local] Hint Resolve scan_pass_tally : scan.

Lemma scan_base_tally p : obeys tally (scan_base p).
Proof. unfold Scanner.scan_base. walk. Qed.

(** The valid roots are kept in order and each missing one is warned of. *)
Lemma check_paths_spec l acc s :
  check_paths l acc s =
    Out (map (fun p => log_signal (path_missing p) warning)
             (filter (fun p => negb (os.exists_ fs p)) l))
        (Ok (acc ++ filter (os.exists_ fs) l)) s.
Proof.
  revert acc. induction l as [|p l IH]; intros acc; simpl.
  - rewrite app_nil_r. reflexivity.
  - destruct (os.exists_ fs p); simpl.
    + rewrite IH, <- app_assoc. reflexivity.
    + unfold bind, emit; simpl. rewrite IH. reflexivity.
Qed.

Lemma warnings_are_logs (l : list path) :
  Forall (fun e => is_log e = true)
         (map (fun p => log_signal (path_missing p) warning) l).
Proof. induction l; simpl; constructor; auto. Qed.

Lemma check_paths_tally l acc : obeys tally (check_paths l acc).
Proof.
  intros s. rewrite check_paths_spec; simpl.
  unfold tally, count_found, found_bytes.
  rewrite (candidates_idle _ (log_is_idle _ (warnings_are_logs _))).
  unfold len; simpl. repeat split; try lia. constructor.
Qed.

#[local] Hint Resolve scan_base_tally check_paths_tally : scan.

Lemma finish_tally : obeys tally Scanner.finish.
Proof. unfold Scanner.finish. walk. Qed.

#[local] Hint Resolve finish_tally : scan.

Lemma scan_tally paths : obeys tally (scan paths).
Proof.
  unfold Scanner.scan. walk.
Qed.

(** *** Stopping *)

Lemma halting_mono s s' :
  halting stop s -> (Scanner.polls s <= Scanner.polls s')%nat ->
  halting stop s'.
Proof.
  unfold halting, running_at. destruct stop as [k|]; [|discriminate].
  rewrite !Nat.ltb_ge. lia.
Qed.

Lemma good_fair {A} (c : M Scanner.locals A) : good stop c -> fair stop c.
Proof. intros [H _]. exact H. Qed.

(** A piece that leaves the locals alone, ends normally and neither reads
    the flag nor announces a candidate. *)
Lemma good_quiet {A} (c : M Scanner.locals A) :
  (forall s, exists t a,
      c s = Out t (Ok a) s
      /\ Forall (fun e => is_read e = false) t
      /\ Forall (fun e => is_found e = false) t) ->
  good stop c.
Proof.
  intros H. split.
  - intros s. destruct (H s) as (t & a & -> & Hr & Hf); simpl.
    split; [lia|]. intros pre post E.
    exfalso. eapply silent_has_no_read; eauto.
  - intros s _. destruct (H s) as (t & a & -> & Hr & Hf); simpl. auto.
Qed.

Lemma good_ret {A} (a : A) : good stop (ret a).
Proof. apply good_quiet. intros s. exists [], a. auto. Qed.

Lemma good_log m l : good stop (emit (log_signal m l)).
Proof.
  apply good_quiet. intros s. exists [log_signal m l], tt.
  repeat split; repeat constructor.
Qed.

Lemma good_finish : good stop Scanner.finish.
Proof.
  apply good_quiet. intros s. eexists _, tt.
  split; [reflexivity|]. split; repeat constructor.
Qed.

Lemma good_check_paths l acc : good stop (check_paths l acc).
Proof.
  apply good_quiet. intros s. eexists _, _.
  split; [apply check_paths_spec|].
  split; [apply log_is_silent | apply log_is_idle]; apply warnings_are_logs.
Qed.

Lemma good_read_running : good stop read_running.
Proof.
  split.
  - intros s; simpl. split; [lia|]. intros pre post E.
    destruct pre as [|e pre]; simpl in E.
    + injection E as E <-. repeat split; auto.
      apply (halting_mono s); [exact E | simpl; lia].
    + injection E as _ E. destruct pre; discriminate.
  - intros s _; simpl. split; [reflexivity | repeat constructor].
Qed.

Lemma good_bind {A B} (c : M Scanner.locals A) (f : A -> M Scanner.locals B) :
  good stop c -> (forall a, good stop (f a)) -> good stop (bind c f).
Proof.
  intros [Fc Gc] Hf. split.
  - intros s. unfold bind. specialize (Fc s).
    destruct (c s) as [t1 [a|e] s1]; simpl in *; [|exact Fc].
    destruct Fc as [L1 S1]. destruct (Hf a) as [Ff Gf].
    destruct (Ff s1) as [L2 S2]. split; [lia|].
    intros pre post E.
    apply split_at_read in E as [(post1 & E1 & ->) | (pre2 & E2 & ->)].
    + destruct (S1 _ _ E1) as (_ & I1 & Hh).
      destruct (Gf s1 Hh) as [O2 I2].
      repeat split; [assumption | apply Forall_app; auto |].
      apply (halting_mono s1); assumption.
    + apply (S2 _ _ E2).
  - intros s Hh. unfold bind. destruct (Gc s Hh) as [O1 I1].
    destruct (Fc s) as [L1 _].
    destruct (c s) as [t1 [a|e] s1]; simpl in *; [|discriminate].
    destruct (Hf a) as [_ Gf].
    destruct (Gf s1 (halting_mono _ _ Hh L1)) as [O2 I2].
    split; [assumption | apply Forall_app; auto].
Qed.

Lemma fair_silent_bind {A B} (c : M Scanner.locals A)
  (f : A -> M Scanner.locals B) :
  obeys silent c -> (forall a, fair stop (f a)) -> fair stop (bind c f).
Proof.
  intros Hc Hf s. unfold bind. destruct (Hc s) as [P Q].
  destruct (c s) as [t1 [a|e] s1]; simpl in *.
  - destruct (Hf a s1) as [L2 S2]. split; [lia|].
    intros pre post E.
    apply split_at_read in E as [(post1 & E1 & ->) | (pre2 & E2 & ->)].
    + exfalso. eapply silent_has_no_read; eauto.
    + apply (S2 _ _ E2).
  - split; [lia|]. intros pre post E.
    exfalso. eapply silent_has_no_read; eauto.
Qed.

Lemma good_for_each {A} (l : list A) body :
  (forall x, good stop (body x)) -> good stop (for_each l body).
Proof.
  intros H. induction l as [|x l IH]; simpl.
  - apply good_ret.
  - apply good_bind; auto.
Qed.

Lemma good_count_pass w n : good stop (count_pass w n).
Proof.
  revert n. induction w as [|[[root dirs] files] w IH]; intros n; simpl.
  - apply good_ret.
  - apply good_bind; [apply good_read_running|].
    intros []; simpl; [apply IH | apply good_ret].
Qed.

Lemma progress_silent a b : obeys silent (emit (progress_signal a b)).
Proof. intros s. split; repeat constructor. Qed.

#[local] Hint Resolve progress_silent inspect_silent : scan.

(** One turn of the reporting loop. *)
Lemma scan_pass_step root dirs files w n m s :
  (forall m', good stop (scan_pass w n m')) ->
  exists rest : M Scanner.locals unit,
    fair stop rest
    /\ scan_pass ((root, dirs, files) :: w) n m s =
       (let s1 := final (read_running s) in
        if running_at stop (Scanner.polls s) then
          Out (running_read true :: emitted (rest s1))
              (outcome (rest s1)) (final (rest s1))
        else Out [running_read false] (Ok tt) s1).
Proof.
  intros IH. eexists. split; cycle 1.
  - cbn [Scanner.scan_pass]. unfold bind at 1.
    cbn [Scanner.read_running outcome emitted final].
    destruct (running_at stop (Scanner.polls s));
      cbn [negb outcome emitted final ret app]; reflexivity.
  - apply fair_silent_bind; [walk|]. intros _.
    apply fair_silent_bind; [walk|]. intros _.
    apply good_fair, IH.
Qed.

Lemma good_scan_pass w n m : good stop (scan_pass w n m).
Proof.
  revert m. induction w as [|[[root dirs] files] w IH]; intros m.
  - apply good_ret.
  - split.
    + intros s.
      destruct (scan_pass_step root dirs files w n m s IH) as (rest & F & ->).
      cbv zeta.
      destruct (running_at stop (Scanner.polls s)) eqn:Hr;
        cbn [outcome emitted final].
      * destruct (F (final (read_running s))) as [L S].
        split; [simpl in L |- *; lia|]. intros pre post E.
        destruct pre as [|e pre]; simpl in E; [discriminate|].
        injection E as _ E. apply (S _ _ E).
      * split; [simpl; lia|]. intros pre post E.
        destruct pre as [|e pre]; simpl in E.
        -- injection E as <-. repeat split; auto.
           apply (halting_mono s); [exact Hr | simpl; lia].
        -- injection E as _ E. destruct pre; discriminate.
    + intros s Hh.
      destruct (scan_pass_step root dirs files w n m s IH) as (rest & F & ->).
      cbv zeta. rewrite Hh. simpl. split; [reflexivity | repeat constructor].
Qed.

Lemma good_scan_base p : good stop (scan_base p).
Proof.
  unfold Scanner.scan_base.
  apply good_bind; [apply good_log|]. intros _.
  apply good_bind; [apply good_count_pass|]. intros n.
  apply good_scan_pass.
Qed.

Lemma fair_scan paths : fair stop (scan paths).
Proof.
  apply good_fair. unfold Scanner.scan.
  apply good_bind; [apply good_log|]. intros _.
  apply good_bind; [apply good_check_paths|]. intros [|p l].
  - apply good_quiet. intros s. eexists _, tt.
    split; [reflexivity|]. split; repeat constructor.
  - apply good_bind; [|intros _; apply good_finish].
    apply good_for_each. intros x. apply good_scan_base.
Qed.

End ScannerLoops.

(** ** The whole scan *)

(** How a scan that does not raise ends: with the summary of a completed
    scan, or, when no root exists, with the empty summary after nothing but
    log lines. *)
Lemma scan_ends fs scan_options now stop paths s :
  let o := Scanner.scan fs scan_options now stop paths s in
  is_ok (outcome o) = true ->
  exists t m l,
    (emitted o =
       t ++ [log_signal m l;
             scan_finished_signal true (Scanner.total_items (final o))
               (inject_Z (Scanner.total_size (final o))
                / inject_Z (1024 * 1024))%Q])
    \/ (emitted o = t ++ [log_signal m l; scan_finished_signal false 0 0%Q]
        /\ Forall (fun e => is_log e = true) t).
Proof.
  cbv zeta. unfold Scanner.scan, bind.
  cbn [emit outcome emitted final app].
  rewrite !check_paths_spec. cbn [emit outcome emitted final app].
  destruct (filter (os.exists_ fs) paths) as [|p l].
  - intros _.
    exists (log_signal scan_started info
              :: map (fun p => log_signal (path_missing p) warning)
                     (filter (fun p => negb (os.exists_ fs p)) paths)).
    eexists _, _. right. split.
    + reflexivity.
    + constructor; [reflexivity | apply warnings_are_logs].
  - destruct (for_each _ _ s) as [t2 [[]|e] s2];
      cbn [outcome emitted final Scanner.finish get emit app];
      [intros _ | discriminate].
    exists (log_signal scan_started info
              :: map (fun p => log_signal (path_missing p) warning)
                     (filter (fun p => negb (os.exists_ fs p)) paths)
              ++ t2).
    eexists _, _. left.
    cbn [app]. rewrite <- app_assoc. reflexivity.
Qed.

(** The shape of every scan: some events [t], then one log line and the
    final summary, whose count is the number of candidates in [t] and whose
    size is their accumulated size, in MB on success and in bytes otherwise.
    A read of the cleared flag in [t] means success, with no candidate
    after it. *)
Lemma run_shape fs scan_options now stop paths :
  exists t m l ok sz,
    Scanner.signals fs scan_options now stop paths =
      t ++ [log_signal m l; scan_finished_signal ok (count_found t) sz]
    /\ sz = (if ok
             then (inject_Z (found_bytes t) / inject_Z (1024 * 1024))%Q
             else inject_Z (found_bytes t))
    /\ Forall (fun c => c_preselected c = default_checked c) (candidates t)
    /\ (forall pre post,
          t = pre ++ running_read false :: post ->
          ok = true /\ Forall (fun e => is_found e = false) post).
Proof.
  unfold Scanner.signals, Scanner.run, try_except, bind.
  cbn [modify outcome emitted final app].
  change {| Scanner.total_items := 0; Scanner.total_size := 0;
            Scanner.polls := Scanner.polls Scanner.start |}
    with Scanner.start.
  pose proof (scan_tally fs scan_options now stop paths Scanner.start)
    as (T1 & T2 & T3).
  pose proof (fair_scan fs scan_options now stop paths Scanner.start)
    as (_ & F).
  pose proof (scan_ends fs scan_options now stop paths Scanner.start) as E.
  cbv zeta in E.
  destruct (Scanner.scan fs scan_options now stop paths Scanner.start)
    as [t r s']. cbn [outcome emitted final] in *.
  change (Scanner.total_items Scanner.start) with 0 in T1.
  change (Scanner.total_size Scanner.start) with 0 in T2.
  destruct r as [[]|e]; cbn [outcome emitted final Exception
                              Scanner.on_exception get emit bind app].
  - destruct (E eq_refl) as (t' & m & l & [-> | [-> L]]).
    + rewrite count_found_app, found_bytes_app, candidates_app in *.
      cbn in T1, T2. rewrite app_nil_r in T3.
      exists t', m, l, true. eexists. split; [|split; [|split]].
      * rewrite T1, T2. do 5 f_equal; ring.
      * do 2 f_equal; ring.
      * exact T3.
      * intros pre post ->. split; [reflexivity|].
        destruct (F pre (post ++ [log_signal m l;
                   scan_finished_signal true (Scanner.total_items s')
                     (inject_Z (Scanner.total_size s')
                      / inject_Z (1024 * 1024))%Q])) as (_ & I & _).
        { rewrite <- app_assoc. reflexivity. }
        apply Forall_app in I. apply I.
    + exists t', m, l, false. eexists.
      pose proof (candidates_idle _ (log_is_idle _ L)) as Z0.
      split; [|split; [|split]].
      * unfold count_found. rewrite Z0. reflexivity.
      * unfold found_bytes. rewrite Z0. reflexivity.
      * rewrite Z0. constructor.
      * intros pre post ->. exfalso.
        eapply silent_has_no_read; [apply log_is_silent, L | reflexivity].
  - exists t. eexists _, _, false, _. split; [|split; [|split]].
    + rewrite T1, T2, Z.add_0_l. reflexivity.
    + rewrite Z.add_0_l. reflexivity.
    + exact T3.
    + intros pre post ->. destruct (F pre post eq_refl) as (O & _).
      discriminate.
Qed.

(** ** Directory size *)

Lemma node_induction (P : node -> Prop) :
  (forall sz a, P (File sz a)) ->
  (forall es, Forall (fun e => P (snd e)) es -> P (Dir es)) ->
  P Sealed ->
  (forall why, P (Link why)) ->
  (forall target, P target -> P (Symlink target)) ->
  forall x, P x.
Proof.
  intros HF HD HS HL HY. fix IH 1.
  intros [sz a|es| |why|target];
    [apply HF | | apply HS | apply HL | apply HY, IH].
  apply HD. revert es. fix IHes 1. intros [|[n c] l]; constructor.
  - apply IH.
  - apply IHes.
Qed.
















(** ** Roots *)

Lemma filter_twice {A} (f : A -> bool) l : filter f (filter f l) = filter f l.
Proof.
  induction l as [|x l IH]; simpl; [reflexivity|].
  destruct (f x) eqn:E; simpl; rewrite ?E, IH; reflexivity.
Qed.

Lemma filter_out {A} (f : A -> bool) l :
  filter (fun x => negb (f x)) (filter f l) = [].
Proof.
  induction l as [|x l IH]; simpl; [reflexivity|].
  destruct (f x) eqn:E; simpl; rewrite ?E; simpl; exact IH.
Qed.

(** A scan is its greeting, one warning per missing root, and then a part
    that depends on the existing roots only. *)
Lemma scan_after_check fs scan_options now stop :
  exists k : list path -> M Scanner.locals unit,
    (forall s,
       k [] s = Out [log_signal no_valid_paths error;
                     scan_finished_signal false 0 0%Q] (Ok tt) s)
    /\ forall paths s,
         Scanner.scan fs scan_options now stop paths s =
           (let o := k (filter (os.exists_ fs) paths) s in
            Out (log_signal scan_started info
                   :: map (fun p => log_signal (path_missing p) warning)
                          (filter (fun p => negb (os.exists_ fs p)) paths)
                   ++ emitted o)
                (outcome o) (final o)).
Proof.
  exists (fun paths_to_scan =>
            match paths_to_scan with
            | [] =>
                emit (log_signal no_valid_paths error) ;;
                emit (scan_finished_signal false 0 0%Q)
            | _ :: _ =>
                for_each paths_to_scan
                  (Scanner.scan_base fs scan_options now stop) ;;
                Scanner.finish
            end).
  split.
  - intros s. reflexivity.
  - intros paths s. unfold Scanner.scan. unfold bind at 1.
    cbn [emit outcome emitted final app].
    rewrite (bind_ok (Scanner.check_paths fs paths []) _ s
               (filter (os.exists_ fs) paths))
      by (rewrite check_paths_spec; reflexivity).
    rewrite check_paths_spec. reflexivity.
Qed.

(** The scan after its greeting and its warnings, with the roots it keeps. *)
Lemma scan_unfold fs scan_options now stop paths s :
  Scanner.scan fs scan_options now stop paths s =
    (let o :=
       match filter (os.exists_ fs) paths with
       | [] =>
           emit (log_signal no_valid_paths error) ;;
           emit (scan_finished_signal false 0 0%Q)
       | _ :: _ =>
           for_each (filter (os.exists_ fs) paths)
             (Scanner.scan_base fs scan_options now stop) ;;
           Scanner.finish
       end s in
     Out (log_signal scan_started info
            :: map (fun p => log_signal (path_missing p) warning)
                   (filter (fun p => negb (os.exists_ fs p)) paths)
            ++ emitted o)
         (outcome o) (final o)).
Proof.
  unfold Scanner.scan. unfold bind at 1.
  cbn [emit outcome emitted final app].
  rewrite (bind_ok (Scanner.check_paths fs paths []) _ s
             (filter (os.exists_ fs) paths))
    by (rewrite check_paths_spec; reflexivity).
  rewrite check_paths_spec. reflexivity.
Qed.

(** ** The clock *)

Lemma for_each_ext_in {St A} (l : list A) (body body' : A -> M St unit) :
  (forall x, In x l -> forall s, body x s = body' x s) ->
  forall s, for_each l body s = for_each l body' s.
Proof.
  intros H. induction l as [|x l IH]; intros s; simpl.
  - reflexivity.
  - apply bind_ext.
    + apply H. left. reflexivity.
    + intros _ s1. apply IH. intros y Hy. apply H. right. exact Hy.
Qed.

Lemma venv_off_same_verdicts fs scan_options now1 now2 paths :
  venv scan_options = false ->
  same_verdicts fs scan_options now1 now2 paths = true.
Proof.
  intros H. unfold same_verdicts, same_verdict. rewrite H.
  apply forallb_forall. intros base _. apply forallb_forall. intros tr _.
  reflexivity.
Qed.

(** A directory that is stale at one reading of the clock is stale at every
    later one. *)
Lemma stale_later fs scan_options now1 now2 root :
  (now1 <= now2)%Q ->
  stale fs scan_options now1 root = true ->
  stale fs scan_options now2 root = true.
Proof.
  unfold stale. intros Hle.
  destruct (Scanner.last_access_time fs root) as [last|e]; [|discriminate].
  rewrite !negb_true_iff. intros H1.
  destruct (Qle_bool ((now2 - last) / inject_Z (60 * 60 * 24))
                     (inject_Z (venv_days scan_options))) eqn:H2;
    [|reflexivity].
  apply Qle_bool_iff in H2.
  assert (L : ((now1 - last) / inject_Z (60 * 60 * 24)
               <= (now2 - last) / inject_Z (60 * 60 * 24))%Q).
  { unfold Qdiv. apply Qmult_le_compat_r; [|discriminate].
    unfold Qminus. apply Qplus_le_compat; [exact Hle | apply Qle_refl]. }
  assert (C : Qle_bool ((now1 - last) / inject_Z (60 * 60 * 24))
                       (inject_Z (venv_days scan_options)) = true).
  { apply Qle_bool_iff. eapply Qle_trans; eassumption. }
  congruence.
Qed.

Section Clock.

Variable fs : node.
Variable scan_options : options.
Variable stop : option nat.
Variables now1 now2 : Q.

Lemma venv_rule_clock root s :
  same_verdict fs scan_options now1 now2 root = true ->
  Scanner.venv_rule fs scan_options now1 root s =
  Scanner.venv_rule fs scan_options now2 root s.
Proof.
  unfold same_verdict, stale, Scanner.venv_rule.
  destruct (venv scan_options); [|reflexivity].
  destruct (Scanner.is_venv fs root); [|reflexivity].
  cbn [andb implb]. unfold bind, lift. cbn [outcome emitted final].
  destruct (Scanner.last_access_time fs root) as [last|e]; [|reflexivity].
  intros H. apply eqb_prop in H. rewrite H. reflexivity.
Qed.

Lemma inspect_clock root dirs files s :
  same_verdict fs scan_options now1 now2 root = true ->
  Scanner.inspect fs scan_options now1 root dirs files s =
  Scanner.inspect fs scan_options now2 root dirs files s.
Proof.
  intros H. unfold Scanner.inspect.
  apply bind_ext; [reflexivity|]. intros _ s1.
  apply bind_ext; [reflexivity|]. intros _ s2.
  apply bind_ext; [apply venv_rule_clock, H|]. intros _ s3.
  reflexivity.
Qed.

Lemma scan_pass_clock w :
  forallb (fun tr : os.triple =>
             same_verdict fs scan_options now1 now2 (fst (fst tr))) w = true ->
  forall n m s,
    Scanner.scan_pass fs scan_options now1 stop w n m s =
    Scanner.scan_pass fs scan_options now2 stop w n m s.
Proof.
  induction w as [|[[root dirs] files] w IH]; intros H n m s.
  - reflexivity.
  - cbn [forallb fst] in H. apply andb_prop in H as [H1 H2].
    cbn [Scanner.scan_pass]. apply bind_ext; [reflexivity|].
    intros [] s1; cbn [negb]; [|reflexivity].
    apply bind_ext; [reflexivity|]. intros _ s2.
    apply bind_ext; [apply inspect_clock, H1|].
    intros _ s3. apply IH, H2.
Qed.

Lemma scan_base_clock p s :
  forallb (fun tr : os.triple =>
             same_verdict fs scan_options now1 now2 (fst (fst tr)))
          (os.walk fs p) = true ->
  Scanner.scan_base fs scan_options now1 stop p s =
  Scanner.scan_base fs scan_options now2 stop p s.
Proof.
  intros H. unfold Scanner.scan_base.
  apply bind_ext; [reflexivity|]. intros _ s1.
  apply bind_ext; [reflexivity|]. intros n s2. apply scan_pass_clock, H.
Qed.

Lemma scan_clock paths s :
  same_verdicts fs scan_options now1 now2 paths = true ->
  Scanner.scan fs scan_options now1 stop paths s =
  Scanner.scan fs scan_options now2 stop paths s.
Proof.
  intros H. rewrite !scan_unfold. cbv zeta.
  unfold same_verdicts in H.
  assert (E : forall s,
            for_each (filter (os.exists_ fs) paths)
              (Scanner.scan_base fs scan_options now1 stop) s =
            for_each (filter (os.exists_ fs) paths)
              (Scanner.scan_base fs scan_options now2 stop) s).
  { apply for_each_ext_in. intros base Hin s1. apply scan_base_clock.
    eapply forallb_forall in H; eassumption. }
  destruct (filter (os.exists_ fs) paths) as [|p l]; [reflexivity|].
  rewrite (bind_ext _ _ _ (fun _ => Scanner.finish) s (E s)
             (fun _ _ => eq_refl)).
  reflexivity.
Qed.

Lemma signals_clock paths :
  same_verdicts fs scan_options now1 now2 paths = true ->
  Scanner.signals fs scan_options now1 stop paths =
  Scanner.signals fs scan_options now2 stop paths.
Proof.
  intros H. unfold Scanner.signals, Scanner.run, try_except.
  rewrite (bind_ext _ _ _ (fun _ => Scanner.scan fs scan_options now2 stop paths)
             Scanner.start eq_refl (fun _ s => scan_clock paths s H)).
  reflexivity.
Qed.

End Clock.

(** ** The cleaner *)

(** An item whose path is neither a directory nor a file is counted like a
    deleted one, and no error is logged for it. *)
Lemma absent_item_counted sys p size s :
  os.isdir (Cleaner.disk s) p = false ->
  os.isfile (Cleaner.disk s) p = false ->
  Cleaner.clean_item sys p size s =
    Out [] (Ok tt)
        {| Cleaner.total_size_cleaned := Cleaner.total_size_cleaned s + size;
           Cleaner.items_cleaned := Cleaner.items_cleaned s + 1;
           Cleaner.polls := Cleaner.polls s;
           Cleaner.disk := Cleaner.disk s |}.
Proof.
  intros Hd Hf. unfold Cleaner.clean_item, try_except, bind.
  cbn [get outcome emitted final]. rewrite Hd, Hf. reflexivity.
Qed.

Lemma clean_shape sys stop items fs :
  let o := Cleaner.run sys stop items (Cleaner.start fs) in
  exists t m l ok,
    emitted o =
      t ++ [log_signal m l;
            clean_finished_signal ok (Cleaner.items_cleaned (final o))
              (if ok
               then (inject_Z (Cleaner.total_size_cleaned (final o))
                     / inject_Z (1024 * 1024))%Q
               else inject_Z (Cleaner.total_size_cleaned (final o)))].
Proof.
  cbv zeta. unfold Cleaner.run, Cleaner.clean, try_except, bind.
  cbn [modify emit outcome emitted final app].
  destruct (Cleaner.clean_loop sys stop items 0 (len items) _)
    as [t [[]|e] s'];
    cbn [outcome emitted final Exception Cleaner.finish
         Cleaner.on_exception get emit bind app].
  - exists (log_signal clean_started info :: t). eexists _, _, true.
    reflexivity.
  - exists (log_signal clean_started info :: t). eexists _, _, false.
    reflexivity.
Qed.

(** The test of the build rule is equality with one of three strings. *)
Lemma build_names d :
  existsb (String.eqb d) ["build"; "dist"; "*.egg-info"] = true <->
  d = "build" \/ d = "dist" \/ d = "*.egg-info".
Proof.
  cbn [existsb]. rewrite !orb_true_iff, !String.eqb_eq.
  intuition discriminate.
Qed.

(** ** What a scan that ends normally has emitted *)

Lemma reports_bind_l {A B} P (c : M Scanner.locals A)
  (f : A -> M Scanner.locals B) :
  reports P c -> reports P (bind c f).
Proof.
  intros H s. unfold bind. specialize (H s).
  destruct (c s) as [t [a|e] s1]; cbn [outcome emitted final] in *;
    [|discriminate].
  intros _. apply Exists_app. left. apply H. reflexivity.
Qed.

Lemma reports_bind_r {A B} P (c : M Scanner.locals A)
  (f : A -> M Scanner.locals B) :
  (forall a, reports P (f a)) -> reports P (bind c f).
Proof.
  intros H s. unfold bind.
  destruct (c s) as [t [a|e] s1]; cbn [outcome emitted final] in *;
    [|discriminate].
  intros O. apply Exists_app. right. apply (H a s1 O).
Qed.

Lemma reports_for_each {A} P (l : list A) body x :
  In x l -> reports P (body x) -> reports P (for_each l body).
Proof.
  intros Hin H. induction l as [|y l IH]; [destruct Hin|].
  cbn [for_each]. destruct Hin as [->|Hin].
  - apply reports_bind_l, H.
  - apply reports_bind_r. intros _. apply IH, Hin.
Qed.

Lemma reports_found p ty size :
  reports (announcing p ty) (Scanner.found p ty size true).
Proof.
  intros s _. cbn. constructor. exists size. reflexivity.
Qed.

Lemma reports_sized p ty (r : result Z) :
  reports (announcing p ty)
          (bind (lift r) (fun size => Scanner.found p ty size true)).
Proof.
  intros s. unfold bind, lift. cbn [outcome emitted final].
  destruct r as [size|e]; [|discriminate].
  intros _. cbn. constructor. exists size. reflexivity.
Qed.

Section Complete.

Variable fs : node.
Variable scan_options : options.
Variable now : Q.

Lemma inspect_reports root dirs files p ty :
  owed scan_options root dirs files p ty ->
  reports (announcing p ty)
          (Scanner.inspect fs scan_options now root dirs files).
Proof.
  unfold Scanner.inspect.
  intros [(E & -> & d & Hd & Hn & ->)
         |[(E & -> & f & Hf & Hn & ->)
         |[(E & -> & d & Hd & Hn & ->)
         |[(E & -> & f & Hf & Hn & ->)
         |(E & -> & d & Hd & Hn & ->)]]]].
  - apply reports_bind_l. unfold Scanner.pycache_rule. rewrite E.
    eapply reports_for_each; [exact Hd|]. cbv beta.
    subst d. cbn [String.eqb Ascii.eqb Bool.eqb]. apply reports_sized.
  - apply reports_bind_r; intros _. apply reports_bind_l.
    unfold Scanner.pyc_rule. rewrite E.
    eapply reports_for_each; [exact Hf|]. cbv beta. rewrite Hn.
    apply reports_sized.
  - do 3 (apply reports_bind_r; intros _). apply reports_bind_l.
    unfold Scanner.jupyter_rule. rewrite E.
    eapply reports_for_each; [exact Hd|]. cbv beta.
    subst d. cbn [String.eqb Ascii.eqb Bool.eqb]. apply reports_sized.
  - do 4 (apply reports_bind_r; intros _). apply reports_bind_l.
    unfold Scanner.temp_rule. rewrite E.
    eapply reports_for_each; [exact Hf|]. cbv beta.
    replace (existsb (endswith f) [".pyc.tmp"; ".py~"; ".pyo"]) with true;
      [apply reports_sized|].
    symmetry. cbn [existsb]. rewrite !orb_true_iff. tauto.
  - do 5 (apply reports_bind_r; intros _).
    unfold Scanner.build_rule. rewrite E.
    eapply reports_for_each; [exact Hd|]. cbv beta.
    replace (existsb (String.eqb d) ["build"; "dist"; "*.egg-info"])
      with true; [apply reports_sized|].
    symmetry. apply build_names. exact Hn.
Qed.

(** A reporting pass that is never stopped and ends normally has inspected
    every directory level of the walk. *)
Lemma scan_pass_reports P w n root dirs files :
  In (root, dirs, files) w ->
  reports P (Scanner.inspect fs scan_options now root dirs files) ->
  forall m, reports P (Scanner.scan_pass fs scan_options now None w n m).
Proof.
  intros Hin H.
  induction w as [|[[r d] f] w IH]; intros m; [destruct Hin|].
  intros s. cbn [Scanner.scan_pass].
  rewrite (bind_ok (Scanner.read_running None) _ s true eq_refl).
  cbn [outcome emitted final negb Scanner.read_running app].
  intros O. apply Exists_cons_tl. revert O.
  match goal with
  | |- is_ok (outcome (?c ?s1)) = true -> _ =>
      generalize s1; change (reports P c)
  end.
  apply reports_bind_r. intros _.
  destruct Hin as [E|Hin].
  - injection E as -> -> ->. apply reports_bind_l, H.
  - apply reports_bind_r. intros _. apply IH, Hin.
Qed.

Lemma scan_base_reports P base root dirs files :
  In (root, dirs, files) (os.walk fs base) ->
  reports P (Scanner.inspect fs scan_options now root dirs files) ->
  reports P (Scanner.scan_base fs scan_options now None base).
Proof.
  intros Hin H. unfold Scanner.scan_base.
  apply reports_bind_r. intros _. apply reports_bind_r. intros n.
  eapply scan_pass_reports; eassumption.
Qed.

End Complete.


(** A scan that ends normally has been through every existing root. *)
Lemma scan_reports P fs scan_options now stop paths base :
  In base paths -> os.exists_ fs base = true ->
  reports P (Scanner.scan_base fs scan_options now stop base) ->
  reports P (Scanner.scan fs scan_options now stop paths).
Proof.
  intros Hbase Hex H s. rewrite scan_unfold. cbv zeta.
  cbn [outcome emitted final].
  assert (Hin : In base (filter (os.exists_ fs) paths))
    by (apply filter_In; auto).
  destruct (filter (os.exists_ fs) paths) as [|q l]; [destruct Hin|].
  intros O. apply Exists_cons_tl, Exists_app. right. revert O.
  generalize s. change (reports P
    (for_each (q :: l) (Scanner.scan_base fs scan_options now stop) ;;
     Scanner.finish)).
  apply reports_bind_l. eapply reports_for_each; [exact Hin|]. exact H.
Qed.

(** A root that is scanned is named in the log first. *)
Lemma scan_base_logs fs scan_options now stop base :
  reports (eq (log_signal (scanning base) info))
          (Scanner.scan_base fs scan_options now stop base).
Proof.
  unfold Scanner.scan_base. apply reports_bind_l.
  intros s _. constructor. reflexivity.
Qed.

(** A run that ends with success true is a scan that ended normally, and
    its signals are those of the scan. *)
Lemma success_is_normal_end fs scan_options now stop paths t count size :
  Scanner.signals fs scan_options now stop paths =
    t ++ [scan_finished_signal true count size] ->
  is_ok (outcome (Scanner.scan fs scan_options now stop paths Scanner.start))
    = true
  /\ emitted (Scanner.scan fs scan_options now stop paths Scanner.start) =
       t ++ [scan_finished_signal true count size].
Proof.
  unfold Scanner.signals, Scanner.run, try_except, bind.
  cbn [modify outcome emitted final app].
  change {| Scanner.total_items := 0; Scanner.total_size := 0;
            Scanner.polls := Scanner.polls Scanner.start |}
    with Scanner.start.
  destruct (Scanner.scan fs scan_options now stop paths Scanner.start)
    as [t0 [[]|e] s'];
    cbn [outcome emitted final Exception Scanner.on_exception get emit app
         is_ok].
  - intros E. split; [reflexivity | exact E].
  - intros E. exfalso.
    change (emitted (Scanner.on_exception e s'))
      with ([log_signal (scan_failed e) error]
              ++ [scan_finished_signal false (Scanner.total_items s')
                    (inject_Z (Scanner.total_size s'))]) in E.
    rewrite (app_assoc t0 [log_signal (scan_failed e) error]
               [scan_finished_signal false (Scanner.total_items s')
                  (inject_Z (Scanner.total_size s'))]) in E.
    apply app_inj_tail in E as [_ E]. discriminate E.
Qed.

(** What a run that ends with success true has emitted before the end. *)
Lemma success_reports P fs scan_options now stop paths t count size :
  reports P (Scanner.scan fs scan_options now stop paths) ->
  ~ P (scan_finished_signal true count size) ->
  Scanner.signals fs scan_options now stop paths =
    t ++ [scan_finished_signal true count size] ->
  Exists P t.
Proof.
  intros R Hfin E.
  destruct (success_is_normal_end _ _ _ _ _ _ _ _ E) as [O E'].
  specialize (R Scanner.start O). rewrite E' in R.
  apply Exists_app in R as [R|R]; [exact R|].
  inversion R as [x l Hx|x l Hx]; subst.
  - destruct (Hfin Hx).
  - inversion Hx.
Qed.

(** * The claims *)

(** Splits a conjunction into its parts, and nothing else. *)
Ltac conjuncts := repeat match goal with |- _ /\ _ => split end.

(** ** C1: end to end *)

(** C1, as stated, fails: on the tree holding [proj/__pycache__/a.pyc]
    (10 bytes) and [proj/module.pyc] (20 bytes), with only the pycache and
    pyc rules on, the scan does not announce 2 candidates of 30 bytes.  The
    walk also enters [__pycache__], so [a.pyc] is announced a second time on
    its own: 3 candidates, 40 bytes. *)
Lemma end_to_end_scan_finds_three :
  candidates project_scan =
    [ {| c_path := ["proj"; "__pycache__"]; c_category := "pycache";
         c_size := 10; c_preselected := true |};
      {| c_path := ["proj"; "module.pyc"]; c_category := "pyc";
         c_size := 20; c_preselected := true |};
      {| c_path := ["proj"; "__pycache__"; "a.pyc"]; c_category := "pyc";
         c_size := 10; c_preselected := true |} ]
  /\ ~ (count_found project_scan = 2 /\ found_bytes project_scan = 30).
Proof.
  split; [vm_compute; reflexivity|]. intros [H _]. vm_compute in H. discriminate.
Qed.

(** C1, amended: on that tree the scan announces exactly 3 candidates that
    total 40 bytes and ends with the summary (true, 3, 40 bytes in MB);
    cleaning the two candidates [proj/__pycache__] and [proj/module.pyc]
    removes both paths, counts 2 items and 30 bytes, and ends with the
    summary (true, 2, 30 bytes in MB). *)
Theorem end_to_end_as_implemented :
  map (fun c => (c_path c, c_category c, c_size c)) (candidates project_scan) =
    [(["proj"; "__pycache__"], "pycache", 10);
     (["proj"; "module.pyc"], "pyc", 20);
     (["proj"; "__pycache__"; "a.pyc"], "pyc", 10)]
  /\ count_found project_scan = 3
  /\ found_bytes project_scan = 40
  /\ last project_scan (running_read true) =
       scan_finished_signal true 3 (inject_Z 40 / inject_Z (1024 * 1024))%Q
  /\ resolve (Cleaner.disk (final project_clean)) ["proj"; "__pycache__"] = None
  /\ resolve (Cleaner.disk (final project_clean)) ["proj"; "module.pyc"] = None
  /\ Cleaner.items_cleaned (final project_clean) = 2
  /\ Cleaner.total_size_cleaned (final project_clean) = 30
  /\ last (emitted project_clean) (running_read true) =
       clean_finished_signal true 2 (inject_Z 30 / inject_Z (1024 * 1024))%Q.
Proof. conjuncts; vm_compute; reflexivity. Qed.

(** ** C2: a path that is gone *)

(** C2 holds of a careful cleaner and not of this one.  With [a.pyc] gone
    and [b.pyc] in place, cleaning both counts 2 items (not 1) and 30 bytes,
    and logs no error: the missing path passes both the [isdir] and the
    [isfile] test and falls through to the two counters.  The next item is
    still processed. *)
Theorem missing_item_counted_as_cleaned :
  os.exists_ one_left_tree ["a.pyc"] = false
  /\ emitted one_left_clean =
       [log_signal clean_started info;
        running_read true;
        clean_progress_signal 1 2 ["a.pyc"];
        running_read true;
        clean_progress_signal 2 2 ["b.pyc"];
        log_signal (removing_file ["b.pyc"]) info;
        log_signal (clean_done 2 30) info;
        clean_finished_signal true 2 (inject_Z 30 / inject_Z (1024 * 1024))%Q]
  /\ Cleaner.items_cleaned (final one_left_clean) = 2.
Proof. conjuncts; vm_compute; reflexivity. Qed.

(** ** C3: build directories *)

(** C3 holds of a scanner that matches the pattern and not of this one: with
    the build rule on, [pkg/build] and [pkg/dist] are announced and
    [pkg/demo.egg-info] is not, although its name ends in [.egg-info]. *)
Theorem egg_info_directory_not_reported :
  endswith "demo.egg-info" ".egg-info" = true
  /\ os.isdir package_tree ["pkg"; "demo.egg-info"] = true
  /\ candidates (Scanner.signals package_tree build_rule_only 0%Q None [[]]) =
       [ {| c_path := ["pkg"; "build"]; c_category := "build";
            c_size := 7; c_preselected := true |};
         {| c_path := ["pkg"; "dist"]; c_category := "build";
            c_size := 0; c_preselected := true |} ].
Proof. conjuncts; vm_compute; reflexivity. Qed.

(** ** C4: a virtual environment without files of its own *)

(** C4 holds of a scanner that guards the maximum and not of this one:
    [work/env] has the marker [bin/activate] and no direct file, [max] raises
    [ValueError], and the only handler is the one around the whole scan.  The
    scan ends with success false and never reaches [work/lib/m.pyc], which
    the same scan announces when the venv rule is off. *)
Theorem bare_venv_aborts_scan :
  Scanner.is_venv bare_venv_tree ["work"; "env"] = true
  /\ Scanner.last_access_time bare_venv_tree ["work"; "env"] = Raise ValueError
  /\ candidates (Scanner.signals bare_venv_tree venv_and_pyc 0%Q None [[]]) = []
  /\ last (Scanner.signals bare_venv_tree venv_and_pyc 0%Q None [[]])
          (running_read true) =
       scan_finished_signal false 0 0%Q
  /\ In (log_signal (scan_failed ValueError) error)
        (Scanner.signals bare_venv_tree venv_and_pyc 0%Q None [[]])
  /\ candidates (Scanner.signals bare_venv_tree bytecode_rules 0%Q None [[]]) =
       [ {| c_path := ["work"; "lib"; "m.pyc"]; c_category := "pyc";
            c_size := 20; c_preselected := true |} ].
Proof.
  conjuncts; vm_compute; try reflexivity. tauto.
Qed.

(** ** C5: the size of a directory *)




(** ** C6: the default check mark *)

(** C6: every candidate a scan announces is unchecked if its category is
    ["venv"] and checked otherwise, whatever the roots, the options, the
    clock and the moment of a stop. *)
Theorem only_venv_unchecked fs scan_options now stop paths :
  Forall (fun c => c_preselected c = negb (String.eqb (c_category c) "venv"))
         (candidates (Scanner.signals fs scan_options now stop paths)).
Proof.
  destruct (run_shape fs scan_options now stop paths)
    as (t & m & l & ok & sz & -> & _ & H & _).
  rewrite candidates_app. cbn. rewrite app_nil_r. exact H.
Qed.

(** ** C7: roots that do not exist *)

(** A scan is its greeting, one warning for every root that does not
    exist, in order, and then what a scan of the existing roots alone emits
    after its greeting. *)
Lemma roots_split fs scan_options now stop paths :
  exists rest,
    Scanner.signals fs scan_options now stop paths =
      log_signal scan_started info
        :: map (fun p => log_signal (path_missing p) warning)
               (filter (fun p => negb (os.exists_ fs p)) paths)
        ++ rest
    /\ Scanner.signals fs scan_options now stop (filter (os.exists_ fs) paths) =
         log_signal scan_started info :: rest
    /\ (filter (os.exists_ fs) paths = [] ->
        rest = [log_signal no_valid_paths error;
                scan_finished_signal false 0 0%Q]).
Proof.
  destruct (scan_after_check fs scan_options now stop) as (k & K0 & K).
  unfold Scanner.signals, Scanner.run, try_except, bind.
  cbn [modify outcome emitted final app].
  rewrite !K, filter_twice, filter_out. cbv zeta.
  cbn [outcome emitted final map app].
  destruct (filter (os.exists_ fs) paths) as [|p l] eqn:E.
  - rewrite K0. cbn [outcome emitted final].
    eexists. split; [reflexivity|]. split; [reflexivity|]. reflexivity.
  - destruct (k (p :: l) _) as [t [[]|e] s']; cbn [outcome emitted final Exception].
    + exists t. split; [reflexivity|]. split; [reflexivity|]. discriminate.
    + exists (t ++ emitted (Scanner.on_exception e s')).
      split; [|split; [reflexivity | discriminate]].
      rewrite app_comm_cons, app_assoc. reflexivity.
Qed.

(** Neither the greeting nor a warning names a root that is scanned or
    announces a candidate. *)
Lemma not_in_the_warnings (e : event) (missing : list path) (t : list event) :
  (forall p, e <> log_signal (path_missing p) warning) ->
  e <> log_signal scan_started info ->
  In e (log_signal scan_started info
          :: map (fun p => log_signal (path_missing p) warning) missing
          ++ t) ->
  In e t.
Proof.
  intros Hw Hg [H|H]; [destruct (Hg (eq_sym H))|].
  apply in_app_or in H as [H|H]; [|exact H].
  apply in_map_iff in H as (p & H & _). destruct (Hw p (eq_sym H)).
Qed.

(** C7: a scan greets, warns once for every root that does not exist, in
    order, and goes on exactly like a scan of the existing roots alone.
    When no root exists it goes on with one error line and the summary
    (false, 0, 0), and nothing else: no directory is walked.  When it ends
    with success true, every existing root has been taken up (the log names
    it) and, unless the scan was stopped, every name that an enabled name
    rule matches at a directory level that [os.walk] lists under that root
    has been announced: the roots that do not exist cost the others
    nothing. *)
Theorem missing_roots_warned_and_skipped fs scan_options now stop paths :
  exists rest,
    Scanner.signals fs scan_options now stop paths =
      log_signal scan_started info
        :: map (fun p => log_signal (path_missing p) warning)
               (filter (fun p => negb (os.exists_ fs p)) paths)
        ++ rest
    /\ Scanner.signals fs scan_options now stop (filter (os.exists_ fs) paths) =
         log_signal scan_started info :: rest
    /\ (filter (os.exists_ fs) paths = [] ->
        rest = [log_signal no_valid_paths error;
                scan_finished_signal false 0 0%Q])
    /\ (forall t count size base,
          rest = t ++ [scan_finished_signal true count size] ->
          In base paths -> os.exists_ fs base = true ->
          In (log_signal (scanning base) info) t
          /\ (stop = None ->
              forall root dirs files p ty,
                In (root, dirs, files) (os.walk fs base) ->
                owed scan_options root dirs files p ty ->
                exists size', In (found_item_signal p ty size' true) t)).
Proof.
  destruct (roots_split fs scan_options now stop paths)
    as (rest & H1 & H2 & H3).
  exists rest. split; [exact H1|]. split; [exact H2|]. split; [exact H3|].
  intros t count size base Erest Hbase Hex.
  assert (E : Scanner.signals fs scan_options now stop paths =
              (log_signal scan_started info
                 :: map (fun p => log_signal (path_missing p) warning)
                        (filter (fun p => negb (os.exists_ fs p)) paths)
                 ++ t)
              ++ [scan_finished_signal true count size]).
  { rewrite H1, Erest. cbn [app]. rewrite app_assoc. reflexivity. }
  split.
  - assert (R : Exists (eq (log_signal (scanning base) info))
                  (log_signal scan_started info
                     :: map (fun p => log_signal (path_missing p) warning)
                            (filter (fun p => negb (os.exists_ fs p)) paths)
                     ++ t)).
    { eapply success_reports; [|discriminate | exact E].
      eapply scan_reports; [exact Hbase | exact Hex|].
      apply scan_base_logs. }
    apply Exists_exists in R as (ev & Hev & <-).
    eapply not_in_the_warnings; [| |exact Hev]; discriminate.
  - intros Hstop root dirs files p ty Hw Ho. subst stop.
    assert (R : Exists (announcing p ty)
                  (log_signal scan_started info
                     :: map (fun p => log_signal (path_missing p) warning)
                            (filter (fun p => negb (os.exists_ fs p)) paths)
                     ++ t)).
    { eapply success_reports; [|intros [sz' H]; discriminate H | exact E].
      eapply scan_reports; [exact Hbase | exact Hex|].
      eapply scan_base_reports; [exact Hw|].
      apply inspect_reports, Ho. }
    apply Exists_exists in R as (ev & Hev & sz' & ->).
    exists sz'. eapply not_in_the_warnings; [| |exact Hev]; discriminate.
Qed.

(** A root that does not exist, then the top of the project tree: the
    warning, then the scan of the tree. *)
Lemma missing_roots_warned_and_skipped_witness :
  In (log_signal (path_missing ["nowhere"]) warning)
     (Scanner.signals project_tree bytecode_rules 0%Q None [["nowhere"]; []])
  /\ exists t,
       Scanner.signals project_tree bytecode_rules 0%Q None [["nowhere"]; []]
         = log_signal scan_started info
             :: log_signal (path_missing ["nowhere"]) warning
             :: t ++ [scan_finished_signal true 3
                        (inject_Z 40 / inject_Z (1024 * 1024))%Q]
       /\ In (log_signal (scanning []) info) t
       /\ exists size',
            In (found_item_signal ["proj"; "module.pyc"] "pyc" size' true) t.
Proof.
  destruct (missing_roots_warned_and_skipped project_tree bytecode_rules 0%Q
              None [["nowhere"]; []]) as (rest & H & _ & _ & K).
  split; [rewrite H; right; left; reflexivity|].
  assert (E : rest =
              removelast
                (skipn 2 (Scanner.signals project_tree bytecode_rules 0%Q
                            None [["nowhere"]; []]))
              ++ [scan_finished_signal true 3
                    (inject_Z 40 / inject_Z (1024 * 1024))%Q]).
  { pose proof H as H'. vm_compute in H'. injection H' as H'.
    rewrite <- H'. vm_compute. reflexivity. }
  eexists. split; [rewrite H, E; reflexivity|].
  destruct (K _ 3 _ [] E (or_intror (or_introl eq_refl)) eq_refl) as [L F].
  split; [exact L|].
  apply (F eq_refl ["proj"] ["__pycache__"] ["module.pyc"]
           ["proj"; "module.pyc"] "pyc").
  - vm_compute. right. left. reflexivity.
  - right. left. split; [reflexivity|]. split; [reflexivity|].
    exists "module.pyc". repeat split. left. reflexivity.
Defined.

(** ** C8: stopping *)

(** C8: when a read of the flag sees it cleared after [N] candidates have
    been announced, no candidate is announced after that read, and the scan
    ends with one log line and the summary (true, [N], the size of those
    candidates in MB). *)
Theorem stop_ends_scan_cleanly fs scan_options now stop paths pre post :
  Scanner.signals fs scan_options now stop paths =
    pre ++ running_read false :: post ->
  Forall (fun e => is_found e = false) post
  /\ exists idle m l,
       post = idle ++ [log_signal m l;
                       scan_finished_signal true (count_found pre)
                         (inject_Z (found_bytes pre) / inject_Z (1024 * 1024))%Q].
Proof.
  destruct (run_shape fs scan_options now stop paths)
    as (t & m & l & ok & sz & -> & Hsz & _ & H).
  intros E. apply split_at_read in E as [(post1 & E1 & ->) | (pre2 & E2 & _)].
  - destruct (H _ _ E1) as [-> I]. subst t sz. split.
    + apply Forall_app. split; [exact I | repeat constructor].
    + exists post1, m, l.
      rewrite count_found_app, found_bytes_app.
      change (running_read false :: post1)
        with ([running_read false] ++ post1).
      rewrite count_found_app, found_bytes_app.
      unfold count_found at 2 3, found_bytes at 2 3.
      rewrite (candidates_idle post1 I). cbn [candidates len length fold_right].
      rewrite !Z.add_0_r. reflexivity.
  - exfalso. destruct pre2 as [|e1 [|e2 [|e3 pre2]]]; discriminate.
Qed.

Lemma stop_ends_scan_cleanly_witness :
  Scanner.signals project_tree bytecode_rules 0%Q (Some 5%nat) [[]] =
    [log_signal scan_started info; log_signal (scanning []) info;
     running_read true; running_read true; running_read true;
     running_read true; progress_signal 25 100;
     running_read true; progress_signal 75 100;
     found_item_signal ["proj"; "__pycache__"] "pycache" 10 true;
     found_item_signal ["proj"; "module.pyc"] "pyc" 20 true]
    ++ running_read false
    :: [log_signal (scan_done 2 30) info;
        scan_finished_signal true 2 (inject_Z 30 / inject_Z (1024 * 1024))%Q]
  /\ Forall (fun e => is_found e = false)
       [log_signal (scan_done 2 30) info;
        scan_finished_signal true 2 (inject_Z 30 / inject_Z (1024 * 1024))%Q].
Proof.
  split; [vm_compute; reflexivity|].
  refine (proj1 (stop_ends_scan_cleanly project_tree bytecode_rules 0%Q
                   (Some 5%nat) [[]]
                   [log_signal scan_started info; log_signal (scanning []) info;
                    running_read true; running_read true; running_read true;
                    running_read true; progress_signal 25 100;
                    running_read true; progress_signal 75 100;
                    found_item_signal ["proj"; "__pycache__"] "pycache" 10 true;
                    found_item_signal ["proj"; "module.pyc"] "pyc" 20 true]
                   _ _)).
  vm_compute; reflexivity.
Defined.

(** ** C9: scanning twice *)

(** C9, as stated, fails: the venv rule compares access times with the
    clock.  The same tree, roots and options give no candidate at time 0 and
    one candidate 31 days later. *)
Lemma rescan_later_differs :
  candidates (Scanner.signals old_venv_tree venv_rule_only 0%Q None [[]]) = []
  /\ candidates (Scanner.signals old_venv_tree venv_rule_only
                   (inject_Z (31 * 86400)) None [[]]) =
       [ {| c_path := ["env"]; c_category := "venv"; c_size := 100;
            c_preselected := false |} ].
Proof. conjuncts; vm_compute; reflexivity. Qed.

(** C9, amended: two scans of the same roots with the same options over
    the same tree, stopped at the same point if at all, emit the same
    signals, hence the same candidates with the same paths, categories and
    sizes, whenever the venv rule comes to the same verdict in both on every
    directory with a marker that the walk lists.  This is so whatever the
    clock says when the venv rule is off, and, when it is on, as long as no
    such directory has its newest file cross the threshold between the two
    scans. *)
Theorem rescan_same_when_verdicts_agree fs scan_options stop paths now1 now2 :
  venv scan_options = false
  \/ same_verdicts fs scan_options now1 now2 paths = true ->
  Scanner.signals fs scan_options now1 stop paths =
    Scanner.signals fs scan_options now2 stop paths
  /\ candidates (Scanner.signals fs scan_options now1 stop paths) =
       candidates (Scanner.signals fs scan_options now2 stop paths).
Proof.
  intros H.
  assert (V : same_verdicts fs scan_options now1 now2 paths = true).
  { destruct H as [H|H]; [|exact H].
    apply venv_off_same_verdicts, H. }
  rewrite (signals_clock fs scan_options stop now1 now2 paths V).
  split; reflexivity.
Qed.

Lemma rescan_same_when_verdicts_agree_witness :
  venv venv_rule_only = true
  /\ candidates (Scanner.signals old_venv_tree venv_rule_only
                   (inject_Z (31 * 86400)) None [[]]) =
       candidates (Scanner.signals old_venv_tree venv_rule_only
                     (inject_Z (45 * 86400)) None [[]])
  /\ candidates (Scanner.signals old_venv_tree venv_rule_only
                   (inject_Z (45 * 86400)) None [[]]) =
       [ {| c_path := ["env"]; c_category := "venv"; c_size := 100;
            c_preselected := false |} ].
Proof.
  split; [reflexivity|]. split.
  - apply (rescan_same_when_verdicts_agree old_venv_tree venv_rule_only None
             [[]] (inject_Z (31 * 86400)) (inject_Z (45 * 86400))
             (or_intror eq_refl)).
  - vm_compute; reflexivity.
Defined.

(** ** C10: the unit of the reported size *)

(** C10: both workers end with one log line and their finished signal.  Its
    size argument is the accumulated byte total divided by [1024 * 1024] when
    success is true and the byte total itself when success is false, so the
    second is [1024 * 1024] times what the first would be for the same
    bytes.  Both ways of ending happen with a total that is not zero: a scan
    that meets a broken link named [b.pyc] after announcing 10 bytes, and a
    clean whose [rmtree] gives up after 10 bytes were freed. *)
Theorem finished_size_units :
  (forall fs scan_options now stop paths,
     exists t m l ok,
       Scanner.signals fs scan_options now stop paths =
         t ++ [log_signal m l;
               scan_finished_signal ok (count_found t)
                 (if ok
                  then (inject_Z (found_bytes t) / inject_Z (1024 * 1024))%Q
                  else inject_Z (found_bytes t))])
  /\ (forall sys stop items fs,
        exists t m l ok items_cleaned total_size_cleaned,
          emitted (Cleaner.run sys stop items (Cleaner.start fs)) =
            t ++ [log_signal m l;
                  clean_finished_signal ok items_cleaned
                    (if ok
                     then (inject_Z total_size_cleaned
                           / inject_Z (1024 * 1024))%Q
                     else inject_Z total_size_cleaned)]
          /\ items_cleaned =
               Cleaner.items_cleaned
                 (final (Cleaner.run sys stop items (Cleaner.start fs)))
          /\ total_size_cleaned =
               Cleaner.total_size_cleaned
                 (final (Cleaner.run sys stop items (Cleaner.start fs))))
  /\ (forall bytes : Z,
        (inject_Z bytes
         == inject_Z 1048576 * (inject_Z bytes / inject_Z (1024 * 1024)))%Q)
  /\ last (Scanner.signals broken_link_tree bytecode_rules 0%Q None [[]])
          (running_read true) =
       scan_finished_signal false 1 (inject_Z 10)
  /\ last (emitted (Cleaner.run giving_up None file_then_dir
                      (Cleaner.start file_and_dir_tree)))
          (running_read true) =
       clean_finished_signal false 1 (inject_Z 10).
Proof.
  split; [|split; [|split; [|split]]].
  - intros fs scan_options now stop paths.
    destruct (run_shape fs scan_options now stop paths)
      as (t & m & l & ok & sz & E & -> & _).
    exists t, m, l, ok. exact E.
  - intros sys stop items fs.
    destruct (clean_shape sys stop items fs) as (t & m & l & ok & E).
    exists t, m, l, ok. eexists _, _. split; [exact E|]. split; reflexivity.
  - intros bytes. symmetry.
    change (inject_Z (1024 * 1024)) with (inject_Z 1048576).
    apply Qmult_div_r. discriminate.
  - vm_compute; reflexivity.
  - vm_compute; reflexivity.
Qed.

(** * Further properties *)

(** ** What the window receives *)

(** What the results hold after a trace has been received. *)
Lemma receive_spec t : forall w,
  PythonCleanerUI.results_tree (PythonCleanerUI.receive t w) =
    PythonCleanerUI.results_tree w
    ++ map (fun c =>
              {| PythonCleanerUI.checkState := c_preselected c;
                 PythonCleanerUI.text1 := c_path c;
                 PythonCleanerUI.text3 := _format_size (c_int (c_size c));
                 PythonCleanerUI.data2 := c_category c;
                 PythonCleanerUI.data3 := c_int (c_size c) |}) (candidates t)
  /\ PythonCleanerUI.found_items (PythonCleanerUI.receive t w) =
       PythonCleanerUI.found_items w ++ map item_of (candidates t).
Proof.
  induction t as [|e t IH]; intros w.
  - cbn. rewrite !app_nil_r. auto.
  - destruct e; cbn [PythonCleanerUI.receive fold_left candidates];
      try apply IH.
    fold (PythonCleanerUI.receive t
            (PythonCleanerUI.add_found_item p type_name (c_int size)
               checked w)).
    destruct (IH (PythonCleanerUI.add_found_item p type_name (c_int size)
                    checked w))
      as [A B].
    rewrite A, B. cbn [PythonCleanerUI.add_found_item
                       PythonCleanerUI.results_tree
                       PythonCleanerUI.found_items map].
    rewrite <- !app_assoc. auto.
Qed.

(** ** Every candidate has a reason *)

Lemma announces_nil P s : announces P s [] s.
Proof. constructor. Qed.

Lemma announces_app P s t1 s1 t2 s2 :
  announces P s t1 s1 -> announces P s1 t2 s2 -> announces P s (t1 ++ t2) s2.
Proof.
  unfold announces. rewrite candidates_app. intros. apply Forall_app; auto.
Qed.

Lemma announces_idle P e s :
  is_found e = false -> announces P s [e] s.
Proof.
  intros H. unfold announces. rewrite (candidates_idle [e]); constructor; auto.
Qed.

Lemma announces_found P p ty sz chk :
  P {| c_path := p; c_category := ty; c_size := sz; c_preselected := chk |} ->
  obeys (announces P) (Scanner.found p ty sz chk).
Proof. intros H s. repeat constructor. exact H. Qed.

(** What a call gave is known to the code that follows it. *)
Lemma obeys_bind_lift {St A B} (R : St -> list event -> St -> Prop)
  (r : result A) (f : A -> M St B) :
  (forall s, R s [] s) ->
  (forall a, r = Ok a -> obeys R (f a)) ->
  obeys R (bind (lift r) f).
Proof.
  intros Hnil H s. unfold bind, lift. cbn [outcome emitted final].
  destruct r as [a|e]; cbn [app].
  - apply (H a eq_refl).
  - apply Hnil.
Qed.

Lemma basename_join root n : basename (join root n) = n.
Proof. unfold basename, join. apply last_last. Qed.

#[local] Hint Resolve announces_nil announces_app : scan.

(** Like [walk], keeping what each test and each call gave. *)
Ltac walk_with_reasons :=
  repeat first
    [ solve [eauto with scan]
    | match goal with
      | |- forall _, _ => intro
      | |- obeys _ (bind (lift _) _) => apply obeys_bind_lift
      | |- obeys _ (if ?b then _ else _) => destruct b eqn:?
      | |- obeys _ (bind _ _) => apply obeys_bind
      | |- obeys _ (for_each _ _) => apply obeys_for_each
      | |- obeys _ (ret _) => apply obeys_ret
      | |- obeys _ (lift _) => apply obeys_lift
      | |- obeys _ get => apply obeys_get
      end ].

Section Reasons.

Variable fs : node.
Variable scan_options : options.
Variable now : Q.
Variable stop : option nat.

#[local] Abbreviation reasoned := (announces (justified fs scan_options now)).

Lemma inspect_reasoned root dirs files :
  obeys reasoned (Scanner.inspect fs scan_options now root dirs files).
Proof.
  unfold Scanner.inspect, Scanner.pycache_rule, Scanner.pyc_rule,
    Scanner.venv_rule, Scanner.jupyter_rule, Scanner.temp_rule,
    Scanner.build_rule.
  walk_with_reasons; apply announces_found; unfold justified;
    cbn [c_path c_category c_size]; rewrite ?basename_join.
  - left. rewrite String.eqb_eq in *. auto.
  - right; left. auto.
  - right; right; left. repeat split; auto.
    eexists. split; [eassumption|].
    match goal with
    | H : negb (Qle_bool ?d ?v) = true |- _ =>
        apply negb_true_iff in H; apply Qnot_le_lt; intros L;
        apply Qle_bool_iff in L; congruence
    end.
  - do 3 right; left. rewrite String.eqb_eq in *. auto.
  - do 4 right; left. repeat split; auto.
    match goal with
    | H : existsb _ _ = true |- _ =>
        cbn [existsb] in H; rewrite !orb_true_iff in H;
        destruct H as [H | [H | [H | H]]]; auto; discriminate
    end.
  - do 5 right. repeat split; auto.
    match goal with
    | H : existsb _ _ = true |- _ =>
        cbn [existsb] in H; rewrite !orb_true_iff, !String.eqb_eq in H;
        destruct H as [H | [H | [H | H]]]; auto; discriminate
    end.
Qed.

End Reasons.

Lemma announces_weaken (P Q : candidate -> Prop) {A}
  (c : M Scanner.locals A) :
  (forall x, P x -> Q x) -> obeys (announces P) c -> obeys (announces Q) c.
Proof. intros H Hc s. eapply Forall_impl; [exact H | apply Hc]. Qed.

Lemma obeys_for_each_in {St A} (R : St -> list event -> St -> Prop)
  (l : list A) body :
  (forall s, R s [] s) ->
  (forall s t1 s1 t2 s2, R s t1 s1 -> R s1 t2 s2 -> R s (t1 ++ t2) s2) ->
  (forall x, In x l -> obeys R (body x)) -> obeys R (for_each l body).
Proof.
  intros Hnil Happ. induction l as [|x l IH]; intros H; simpl.
  - apply obeys_ret, Hnil.
  - apply obeys_bind; [exact Happ | apply H; left; reflexivity |].
    intros _. apply IH. intros y Hy. apply H. right. exact Hy.
Qed.

Section Announcing.

Variable fs : node.
Variable scan_options : options.
Variable now : Q.
Variable stop : option nat.
Variable P : candidate -> Prop.

Lemma read_running_announces : obeys (announces P) (Scanner.read_running stop).
Proof. intros s. constructor. Qed.

Lemma count_pass_announces w n :
  obeys (announces P) (Scanner.count_pass stop w n).
Proof.
  revert n. induction w as [|[[root dirs] files] w IH]; intros n; simpl.
  - walk.
  - apply obeys_bind; eauto with scan; [apply read_running_announces|].
    intros []; simpl; walk.
Qed.

Lemma emit_idle_announces e :
  is_found e = false -> obeys (announces P) (emit e).
Proof. intros H s. apply announces_idle, H. Qed.

Lemma scan_pass_announces w n m :
  Forall (fun tr : os.triple =>
            obeys (announces P)
              (Scanner.inspect fs scan_options now
                 (fst (fst tr)) (snd (fst tr)) (snd tr))) w ->
  obeys (announces P) (Scanner.scan_pass fs scan_options now stop w n m).
Proof.
  intros H. revert m.
  induction H as [|[[root dirs] files] w H _ IH]; intros m; simpl.
  - walk.
  - apply obeys_bind; eauto with scan; [apply read_running_announces|].
    intros []; simpl; [|walk].
    apply obeys_bind; eauto with scan.
    + destruct (0 <? n); [apply emit_idle_announces; reflexivity | walk].
    + intros _. apply obeys_bind; eauto with scan.
Qed.

Lemma scan_base_announces p :
  Forall (fun tr : os.triple =>
            obeys (announces P)
              (Scanner.inspect fs scan_options now
                 (fst (fst tr)) (snd (fst tr)) (snd tr))) (os.walk fs p) ->
  obeys (announces P) (Scanner.scan_base fs scan_options now stop p).
Proof.
  intros H. unfold Scanner.scan_base.
  apply obeys_bind; eauto with scan;
    [apply emit_idle_announces; reflexivity|].
  intros _. apply obeys_bind; eauto with scan; [apply count_pass_announces|].
  intros n. apply scan_pass_announces, H.
Qed.

Lemma signals_announce paths :
  (forall p, In p paths -> os.exists_ fs p = true ->
     obeys (announces P) (Scanner.scan_base fs scan_options now stop p)) ->
  Forall P (candidates (Scanner.signals fs scan_options now stop paths)).
Proof.
  intros H. unfold Scanner.signals, Scanner.run.
  assert (S : obeys (announces P)
                (Scanner.scan fs scan_options now stop paths)).
  { intros s. rewrite scan_unfold. cbv zeta. cbn [emitted final].
    unfold announces.
    change (log_signal scan_started info :: ?l)
      with ([log_signal scan_started info] ++ l).
    rewrite !candidates_app. cbn [candidates app].
    rewrite (candidates_idle _ (log_is_idle _ (warnings_are_logs _))).
    cbn [app].
    destruct (filter (os.exists_ fs) paths) as [|p l] eqn:E.
    - constructor.
    - apply (obeys_bind (announces P)) with (s := s); eauto with scan.
      + apply obeys_for_each_in; eauto with scan.
        intros x Hx. rewrite <- E in Hx. apply filter_In in Hx as [Hx1 Hx2].
        apply H; assumption.
      + intros _. unfold Scanner.finish. walk;
          apply emit_idle_announces; reflexivity. }
  apply (obeys_try_except (announces P)); eauto with scan.
  - apply obeys_bind; eauto with scan. intros s. constructor.
  - intros e. unfold Scanner.on_exception. walk;
      apply emit_idle_announces; reflexivity.
Qed.

End Announcing.

Lemma signals_justified fs scan_options now stop paths :
  Forall (justified fs scan_options now)
         (candidates (Scanner.signals fs scan_options now stop paths)).
Proof.
  apply signals_announce. intros p _ _. apply scan_base_announces.
  apply Forall_forall. intros [[root dirs] files] _. apply inspect_reasoned.
Qed.

(** X1: every candidate a scan announces comes from an enabled rule, carries
    the category of that rule and has a last path component that passes the
    rule's test; the size the scanner passes to [found_item_signal.emit] is
    the size the rule's size call returned, and the size the window stores
    for the candidate is [c_int] of it, the signal carrying a C [int]. *)
Theorem candidates_are_justified fs scan_options now stop paths :
  Forall (justified fs scan_options now)
         (candidates (Scanner.signals fs scan_options now stop paths))
  /\ map PythonCleanerUI.data3
         (PythonCleanerUI.results_tree
            (PythonCleanerUI.receive
               (Scanner.signals fs scan_options now stop paths)
               PythonCleanerUI.cleared)) =
       map (fun c => c_int (c_size c))
           (candidates (Scanner.signals fs scan_options now stop paths)).
Proof.
  split; [apply signals_justified|].
  rewrite (proj1 (receive_spec _ _)).
  cbn [PythonCleanerUI.cleared PythonCleanerUI.results_tree app].
  rewrite map_map. reflexivity.
Qed.

(** ** Candidates lie below the roots *)

Lemma below_refl p : below p p.
Proof. exists []. symmetry. apply app_nil_r. Qed.

Lemma below_join p n : below p (join p n).
Proof. exists [n]. reflexivity. Qed.

Lemma below_trans a b c : below a b -> below b c -> below a c.
Proof.
  intros [r1 ->] [r2 ->]. exists (r1 ++ r2). symmetry. apply app_assoc.
Qed.

Lemma walk_node_below x :
  forall top,
    Forall (fun tr : os.triple => below top (fst (fst tr)))
           (os.walk_node top x).
Proof.
  induction x as [sz a|es IH| |why|target _] using node_induction; intros top;
    try constructor.
  - apply below_refl.
  - change (Forall (fun tr : os.triple => below top (fst (fst tr)))
              (walk_entries top es)).
    induction IH as [|[n c] l Hc _ IHl]; [constructor|].
    cbn [walk_entries]. fold (walk_entries top l).
    apply Forall_app. split; [|exact IHl].
    destruct (os.entry_is_dir c && negb (os.islink c)); [|constructor].
    eapply Forall_impl; [|apply (Hc (join top n))].
    intros tr Htr. eapply below_trans; [apply below_join | exact Htr].
Qed.

Lemma walk_below fs base :
  Forall (fun tr : os.triple => below base (fst (fst tr))) (os.walk fs base).
Proof.
  unfold os.walk. destruct (os.stat fs base); [apply walk_node_below|].
  constructor.
Qed.

Lemma inspect_below fs scan_options now root dirs files :
  obeys (announces (fun c => below root (c_path c)))
        (Scanner.inspect fs scan_options now root dirs files).
Proof.
  unfold Scanner.inspect, Scanner.pycache_rule, Scanner.pyc_rule,
    Scanner.venv_rule, Scanner.jupyter_rule, Scanner.temp_rule,
    Scanner.build_rule.
  walk; apply announces_found; cbn [c_path];
    first [apply below_join | apply below_refl].
Qed.

(** X2: every candidate a scan announces lies in or below one of the given
    roots that exist. *)
Theorem candidates_lie_below_roots fs scan_options now stop paths :
  Forall (fun c =>
            exists root,
              In root paths /\ os.exists_ fs root = true
              /\ below root (c_path c))
         (candidates (Scanner.signals fs scan_options now stop paths)).
Proof.
  apply signals_announce. intros p Hin Hex. apply scan_base_announces.
  eapply Forall_impl; [|apply (walk_below fs p)].
  intros [[root dirs] files] Hroot. cbn [fst snd] in *.
  eapply announces_weaken; [|apply inspect_below].
  intros c Hc. exists p. repeat split; auto.
  eapply below_trans; eassumption.
Qed.

(** ** Stale virtual environments *)

Lemma resolve_join fs root n :
  resolve fs (join root n) = child (resolve fs root) n.
Proof. unfold resolve, join. apply fold_left_app. Qed.

Lemma assoc_In c es x : assoc c es = Some x -> In c (map fst es).
Proof.
  induction es as [|[n y] es IH]; simpl; [discriminate|].
  destruct (String.eqb_spec c n) as [->|_]; auto.
Qed.

Lemma traverse_In {A B} (g : A -> result B) l ys x y :
  traverse g l = Ok ys -> In x l -> g x = Ok y -> In y ys.
Proof.
  revert ys. induction l as [|a l IH]; intros ys H Hin Hg; [destruct Hin|].
  simpl in H. destruct (g a) as [b|] eqn:Ea; [|discriminate].
  destruct (traverse g l) as [bs|] eqn:El; [|discriminate].
  injection H as <-. destruct Hin as [->|Hin].
  - left. congruence.
  - right. eapply IH; eauto.
Qed.

Lemma running_max_ge l : forall x,
  (x <= fold_left (fun m y => if Qle_bool y m then m else y) l x)%Q
  /\ forall y, In y l ->
       (y <= fold_left (fun m y => if Qle_bool y m then m else y) l x)%Q.
Proof.
  induction l as [|a l IH]; intros x; simpl.
  - split; [apply Qle_refl | intros y []].
  - destruct (IH (if Qle_bool a x then x else a)) as [H1 H2].
    assert (Hx : (x <= (if Qle_bool a x then x else a))%Q
                 /\ (a <= (if Qle_bool a x then x else a))%Q).
    { destruct (Qle_bool a x) eqn:E.
      - split; [apply Qle_refl | apply Qle_bool_iff, E].
      - split; [|apply Qle_refl].
        apply Qlt_le_weak, Qnot_le_lt. intros L.
        apply Qle_bool_iff in L. congruence. }
    destruct Hx as [Hx Ha]. split.
    + eapply Qle_trans; eassumption.
    + intros y [<-|Hy]; [eapply Qle_trans; eassumption | apply H2, Hy].
Qed.

Lemma max_ge l m y : Scanner.max_ l = Ok m -> In y l -> (y <= m)%Q.
Proof.
  destruct l as [|x l]; [discriminate|]. intros H Hy. injection H as <-.
  destruct (running_max_ge l x) as [H1 H2].
  destruct Hy as [<-|Hy]; auto.
Qed.

(** The time [last_access_time] gives is no earlier than the access time of
    any regular file directly in the directory. *)
Lemma last_access_time_ge fs root last f sz atime :
  Scanner.last_access_time fs root = Ok last ->
  resolve fs (join root f) = Some (File sz atime) ->
  (atime <= last)%Q.
Proof.
  unfold Scanner.last_access_time, os.listdir, os.stat. intros H Hf.
  pose proof Hf as Hc. rewrite resolve_join in Hc.
  destruct (resolve fs root) as [x|]; [|discriminate].
  cbn [child] in Hc.
  destruct (follow x) as [[| es | | |]|]; try discriminate.
  destruct (traverse _ _) as [atimes|] eqn:T; [|discriminate].
  eapply max_ge; [exact H|].
  eapply traverse_In;
    [exact T | | unfold os.getatime, os.stat; rewrite Hf; reflexivity].
  apply filter_In. split; [eapply assoc_In; eassumption|].
  unfold os.isfile, os.stat. rewrite Hf. reflexivity.
Qed.

Lemma older_still_stale (now last atime : Q) (days : Z) :
  (atime <= last)%Q ->
  (inject_Z days < (now - last) / inject_Z (60 * 60 * 24))%Q ->
  (inject_Z days < (now - atime) / inject_Z (60 * 60 * 24))%Q.
Proof.
  intros Hle Hlt. eapply Qlt_le_trans; [exact Hlt|].
  unfold Qdiv. apply Qmult_le_compat_r.
  - unfold Qminus. apply Qplus_le_compat; [apply Qle_refl|].
    apply Qopp_le_compat, Hle.
  - discriminate.
Qed.

(** X3: a directory announced as a stale virtual environment has no regular
    file directly in it that was accessed within the configured number of
    days: every such file is older than the threshold. *)
Theorem stale_venv_has_no_fresh_file fs scan_options now stop paths :
  Forall (fun c =>
            c_category c = "venv" ->
            forall f sz atime,
              resolve fs (join (c_path c) f) = Some (File sz atime) ->
              (inject_Z (venv_days scan_options)
               < (now - atime) / inject_Z (60 * 60 * 24))%Q)
         (candidates (Scanner.signals fs scan_options now stop paths)).
Proof.
  eapply Forall_impl; [|apply signals_justified].
  intros c J Hv f sz atime Hf. unfold justified in J. rewrite Hv in J.
  destruct J as [J|[J|[J|[J|[J|J]]]]];
    try (destruct J as [J _]; discriminate).
  destruct J as (_ & _ & _ & (last & Hl & Hd) & _).
  eapply older_still_stale; [|exact Hd].
  eapply last_access_time_ge; eassumption.
Qed.

(** ** Progress stays within 0 and 100 *)

Lemma len_nonneg {A} (l : list A) : 0 <= len l.
Proof. unfold len. lia. Qed.

Lemma entries_nonneg w : 0 <= entries w.
Proof.
  induction w as [|tr w IH]; simpl; [lia|].
  pose proof (len_nonneg (snd (fst tr))). pose proof (len_nonneg (snd tr)).
  lia.
Qed.

Lemma percent_in_range (current total : Z) :
  0 <= current <= total -> 0 < total ->
  0 <= int_ (fmul (true_divide current total) 100) <= 100.
Proof. intros Hc Ht. apply percent_range; assumption. Qed.

Lemma percents_nil s : percents s [] s.
Proof. constructor. Qed.

Lemma percents_app s t1 s1 t2 s2 :
  percents s t1 s1 -> percents s1 t2 s2 -> percents s (t1 ++ t2) s2.
Proof. unfold percents. intros. apply Forall_app; auto. Qed.

#[local] Hint Resolve percents_nil percents_app : scan.

Lemma found_percents p ty sz chk : obeys percents (Scanner.found p ty sz chk).
Proof. intros s. repeat constructor. Qed.

Lemma inspect_percents fs scan_options now root dirs files :
  obeys percents (Scanner.inspect fs scan_options now root dirs files).
Proof.
  unfold Scanner.inspect, Scanner.pycache_rule, Scanner.pyc_rule,
    Scanner.venv_rule, Scanner.jupyter_rule, Scanner.temp_rule,
    Scanner.build_rule.
  walk; apply found_percents.
Qed.

Section Percent.

Variable fs : node.
Variable scan_options : options.
Variable now : Q.
Variable stop : option nat.

(** The counting pass ends normally; it has counted every entry unless the
    flag is cleared by then. *)
Lemma count_pass_counts w n s :
  exists r,
    outcome (Scanner.count_pass stop w n s) = Ok r
    /\ (r = n + entries w
        \/ halting stop (final (Scanner.count_pass stop w n s)))
    /\ Forall in_percent (emitted (Scanner.count_pass stop w n s)).
Proof.
  revert n s. induction w as [|[[root dirs] files] w IH]; intros n s.
  - exists n. simpl. repeat split; auto. left. lia.
  - cbn [Scanner.count_pass]. unfold bind at 1 2 3.
    cbn [Scanner.read_running outcome emitted final].
    destruct (running_at stop (Scanner.polls s)) eqn:Hr; cbn [negb].
    + destruct (IH (n + (len dirs + len files))
                  (final (Scanner.read_running stop s)))
        as (r & Ho & Hr' & Hp).
      exists r. cbn [Scanner.read_running final] in *.
      repeat split.
      * exact Ho.
      * destruct Hr' as [-> | Hh]; [left; simpl; lia | right; exact Hh].
      * constructor; [exact I | exact Hp].
    + exists n. cbn [ret outcome emitted final app]. repeat split.
      * right. apply (halting_mono stop s); [exact Hr | simpl; lia].
      * repeat constructor.
Qed.

(** The reporting pass keeps its percentage in range as long as what it has
    visited and what is left do not exceed the total it was given. *)
Lemma scan_pass_percents w n m s :
  0 <= m ->
  halting stop s \/ m + entries w <= n ->
  Forall in_percent
         (emitted (Scanner.scan_pass fs scan_options now stop w n m s)).
Proof.
  revert m s. induction w as [|[[root dirs] files] w IH]; intros m s Hm H.
  - constructor.
  - cbn [Scanner.scan_pass]. unfold bind at 1.
    cbn [Scanner.read_running outcome emitted final].
    destruct (running_at stop (Scanner.polls s)) eqn:Hr; cbn [negb].
    + destruct H as [H|H]; [unfold halting in H; congruence|].
      cbn [entries fold_right fst snd] in H. fold (entries w) in H.
      pose proof (entries_nonneg w). pose proof (len_nonneg dirs).
      pose proof (len_nonneg files).
      constructor; [exact I|].
      apply (obeys_bind percents); eauto with scan.
      * intros s1. destruct (0 <? n) eqn:Hn; [|constructor].
        unfold percents. cbn [emit emitted].
        constructor; [|constructor]. split; [|reflexivity].
        apply percent_in_range; [lia | apply Z.ltb_lt, Hn].
      * intros _. apply (obeys_bind percents); eauto with scan.
        -- apply inspect_percents.
        -- intros _ s2. apply IH; [lia | right; lia].
    + repeat constructor.
Qed.

Lemma scan_base_percents p : obeys percents (Scanner.scan_base fs scan_options now stop p).
Proof.
  intros s. unfold Scanner.scan_base, percents. unfold bind at 1.
  cbn [emit outcome emitted final]. constructor; [exact I|].
  unfold bind.
  destruct (count_pass_counts (os.walk fs p) 0 s) as (r & Ho & Hr & Hp).
  rewrite Ho. cbn [emitted]. apply Forall_app. split; [exact Hp|].
  apply scan_pass_percents; [lia|].
  destruct Hr as [-> | Hh]; [right; lia | left; exact Hh].
Qed.

(** X4: every progress signal of a scan is a whole percentage between 0 and
    100, out of 100. *)
Theorem progress_is_a_percentage paths :
  Forall in_percent (Scanner.signals fs scan_options now stop paths).
Proof.
  unfold Scanner.signals, Scanner.run.
  apply (obeys_try_except percents); eauto with scan.
  - apply obeys_bind; eauto with scan; [intros s; constructor|].
    intros _ s. rewrite scan_unfold. cbv zeta. cbn [emitted final].
    unfold percents. constructor; [exact I|]. apply Forall_app. split.
    + eapply Forall_impl; [|apply warnings_are_logs].
      intros [] H; try discriminate H. exact I.
    + destruct (filter (os.exists_ fs) paths) as [|p l].
      * repeat constructor.
      * apply (obeys_bind percents); eauto with scan.
        -- apply obeys_for_each; eauto with scan.
           intros x. apply scan_base_percents.
        -- intros _ s1. repeat constructor.
  - intros e s. repeat constructor.
Qed.

End Percent.

(** ** One finished signal, at the end, and no exception *)

Lemma unfinished_nil {St} (s : St) : unfinished s [] s.
Proof. constructor. Qed.

Lemma unfinished_app {St} (s : St) t1 s1 t2 s2 :
  unfinished s t1 s1 -> unfinished s1 t2 s2 -> unfinished s (t1 ++ t2) s2.
Proof. unfold unfinished. intros. apply Forall_app; auto. Qed.

#[local] Hint Resolve unfinished_nil unfinished_app : scan.

Lemma emit_unfinished {St} e :
  is_finished e = false -> obeys (@unfinished St) (emit e).
Proof. intros H s. constructor; [exact H | constructor]. Qed.

Lemma scan_base_unfinished fs scan_options now stop p :
  obeys unfinished (Scanner.scan_base fs scan_options now stop p).
Proof.
  unfold Scanner.scan_base.
  apply obeys_bind; eauto with scan; [apply emit_unfinished; reflexivity|].
  intros _. apply obeys_bind; eauto with scan.
  - generalize 0. induction (os.walk fs p) as [|[[root dirs] files] w IH];
      intros n; simpl; [walk|].
    apply obeys_bind; eauto with scan; [intros s; repeat constructor|].
    intros []; simpl; walk.
  - intros n. generalize 0.
    induction (os.walk fs p) as [|[[root dirs] files] w IH];
      intros m; simpl; [walk|].
    apply obeys_bind; eauto with scan; [intros s; repeat constructor|].
    intros []; simpl; [|walk].
    apply obeys_bind; eauto with scan.
    + destruct (0 <? n); [apply emit_unfinished; reflexivity | walk].
    + intros _. apply obeys_bind; eauto with scan.
      unfold Scanner.inspect, Scanner.pycache_rule, Scanner.pyc_rule,
        Scanner.venv_rule, Scanner.jupyter_rule, Scanner.temp_rule,
        Scanner.build_rule, Scanner.found.
      walk; first [apply emit_unfinished; reflexivity
                  | intros s; constructor].
Qed.

(** How the body of the [try] ends: normally, after exactly one finished
    signal, or with an exception and no finished signal yet. *)
Lemma scan_finish_shape fs scan_options now stop paths s :
  match outcome (Scanner.scan fs scan_options now stop paths s) with
  | Ok _ =>
      exists t success count size,
        emitted (Scanner.scan fs scan_options now stop paths s) =
          t ++ [scan_finished_signal success count size]
        /\ Forall (fun e => is_finished e = false) t
  | Raise _ =>
      Forall (fun e => is_finished e = false)
             (emitted (Scanner.scan fs scan_options now stop paths s))
  end.
Proof.
  rewrite scan_unfold. cbv zeta. cbn [outcome emitted final].
  assert (W : Forall (fun e => is_finished e = false)
                (log_signal scan_started info
                   :: map (fun p => log_signal (path_missing p) warning)
                          (filter (fun p => negb (os.exists_ fs p)) paths))).
  { constructor; [reflexivity|].
    eapply Forall_impl; [|apply warnings_are_logs].
    intros [] H; try discriminate H; reflexivity. }
  destruct (filter (os.exists_ fs) paths) as [|p l].
  - cbn [bind emit outcome emitted final app].
    exists (log_signal scan_started info
              :: map (fun p => log_signal (path_missing p) warning)
                     (filter (fun p => negb (os.exists_ fs p)) paths)
              ++ [log_signal no_valid_paths error]).
    eexists _, _, _. split.
    + cbn [app]. rewrite <- app_assoc. reflexivity.
    + rewrite app_comm_cons. apply Forall_app. split; [exact W|].
      repeat constructor.
  - pose proof (obeys_for_each unfinished unfinished_nil unfinished_app
                  (p :: l) _
                  (scan_base_unfinished fs scan_options now stop) s) as U.
    unfold bind.
    destruct (for_each (p :: l) _ s) as [t2 [[]|e] s2];
      cbn [outcome emitted final Scanner.finish get emit bind app] in *.
    + exists ((log_signal scan_started info
                 :: map (fun p => log_signal (path_missing p) warning)
                        (filter (fun p => negb (os.exists_ fs p)) paths)
                 ++ t2)
              ++ [log_signal (scan_done (Scanner.total_items s2)
                                (Scanner.total_size s2)) info]).
      eexists _, _, _. split.
      * cbn [app]. rewrite <- !app_assoc. reflexivity.
      * apply Forall_app. split; [|repeat constructor].
        rewrite app_comm_cons. apply Forall_app. split; [exact W | exact U].
    + rewrite app_comm_cons. apply Forall_app. split; [exact W | exact U].
Qed.

(** X5: whatever happens during a scan, [Scanner.run] returns normally
    (no exception leaves it) and emits exactly one [scan_finished_signal],
    as its last signal. *)
Theorem scan_finishes_once fs scan_options now stop paths :
  outcome (Scanner.run fs scan_options now stop paths Scanner.start) = Ok tt
  /\ exists t success count size,
       Scanner.signals fs scan_options now stop paths =
         t ++ [scan_finished_signal success count size]
       /\ Forall (fun e => is_finished e = false) t.
Proof.
  unfold Scanner.signals, Scanner.run.
  pose proof (scan_finish_shape fs scan_options now stop paths Scanner.start)
    as H.
  remember (Scanner.scan fs scan_options now stop paths) as sc eqn:E.
  unfold try_except, bind.
  cbn [modify outcome emitted final app].
  change {| Scanner.total_items := 0; Scanner.total_size := 0;
            Scanner.polls := Scanner.polls Scanner.start |}
    with Scanner.start.
  destruct (sc Scanner.start) as [t [[]|e] s'];
    cbn [outcome emitted final Exception Scanner.on_exception get emit app]
      in *.
  - split; [reflexivity | exact H].
  - split; [reflexivity|].
    exists (t ++ [log_signal (scan_failed e) error]). eexists _, _, _. split.
    + rewrite <- app_assoc. reflexivity.
    + apply Forall_app. split; [exact H | repeat constructor].
Qed.

(** ** The cleaner's run *)

Lemma call_unfinished f : obeys unfinished (Cleaner.call f).
Proof.
  intros s. unfold Cleaner.call. destruct (f (Cleaner.disk s)). constructor.
Qed.

Lemma clean_item_unfinished sys p size :
  obeys unfinished (Cleaner.clean_item sys p size).
Proof.
  unfold Cleaner.clean_item.
  apply obeys_try_except; eauto with scan.
  - apply obeys_bind; eauto with scan; [apply obeys_get; eauto with scan|].
    intros s. apply obeys_bind; eauto with scan.
    + destruct (os.isdir _ _); [|destruct (os.isfile _ _)].
      * apply obeys_bind; eauto with scan;
          [apply emit_unfinished; reflexivity | intros _; apply call_unfinished].
      * apply obeys_bind; eauto with scan;
          [apply emit_unfinished; reflexivity | intros _; apply call_unfinished].
      * walk.
    + intros _ s1. constructor.
  - intros e. apply emit_unfinished. reflexivity.
Qed.

Lemma clean_loop_unfinished sys stop items index total :
  obeys unfinished (Cleaner.clean_loop sys stop items index total).
Proof.
  revert index. induction items as [|[[p ty] size] items IH]; intros index;
    simpl; [walk|].
  apply obeys_bind; eauto with scan; [intros s; repeat constructor|].
  intros []; simpl; [|walk].
  apply obeys_bind; eauto with scan; [apply emit_unfinished; reflexivity|].
  intros _. apply obeys_bind; eauto with scan.
  apply clean_item_unfinished.
Qed.

(** X6: whatever the deleting calls do, [Cleaner.run] returns normally and
    emits exactly one [clean_finished_signal], as its last signal. *)
Theorem clean_finishes_once sys stop items fs :
  outcome (Cleaner.run sys stop items (Cleaner.start fs)) = Ok tt
  /\ exists t success count size,
       emitted (Cleaner.run sys stop items (Cleaner.start fs)) =
         t ++ [clean_finished_signal success count size]
       /\ Forall (fun e => is_finished e = false) t.
Proof.
  unfold Cleaner.run, Cleaner.clean.
  pose proof (clean_loop_unfinished sys stop items 0 (len items)
                (Cleaner.start fs)) as U.
  remember (Cleaner.clean_loop sys stop items 0 (len items)) as loop eqn:E.
  unfold try_except, bind.
  cbn [modify emit outcome emitted final app].
  change {| Cleaner.total_size_cleaned := 0; Cleaner.items_cleaned := 0;
            Cleaner.polls := Cleaner.polls (Cleaner.start fs);
            Cleaner.disk := Cleaner.disk (Cleaner.start fs) |}
    with (Cleaner.start fs).
  unfold unfinished in U.
  destruct (loop (Cleaner.start fs)) as [t [[]|e] s'];
    cbn [outcome emitted final Exception Cleaner.finish Cleaner.on_exception
         get emit app] in *.
  - split; [reflexivity|].
    exists (log_signal clean_started info :: t
              ++ [log_signal (clean_done (Cleaner.items_cleaned s')
                                (Cleaner.total_size_cleaned s')) info]).
    eexists _, _, _. split.
    + cbn [app]. rewrite <- app_assoc. reflexivity.
    + constructor; [reflexivity|]. apply Forall_app. split; [exact U|].
      repeat constructor.
  - split; [reflexivity|].
    exists (log_signal clean_started info :: t
              ++ [log_signal (clean_failed e) error]).
    eexists _, _, _. split.
    + cbn [app]. rewrite <- app_assoc. reflexivity.
    + constructor; [reflexivity|]. apply Forall_app. split; [exact U|].
      repeat constructor.
Qed.

Lemma attempts_app t1 t2 : attempts (t1 ++ t2) = attempts t1 ++ attempts t2.
Proof.
  induction t1 as [|e t1 IH]; simpl; [reflexivity|].
  destruct e; simpl; rewrite ?IH; reflexivity.
Qed.

Lemma failures_app t1 t2 : failures (t1 ++ t2) = failures t1 ++ failures t2.
Proof.
  induction t1 as [|e t1 IH]; simpl; [reflexivity|].
  destruct e as [[] ?| | | | | |]; simpl; rewrite ?IH; reflexivity.
Qed.

(** One item: no progress signal of its own, and it is counted, or logged
    as failed, or it raises; exactly one of the three. *)
Lemma clean_item_count sys p size s :
  attempts (emitted (Cleaner.clean_item sys p size s)) = []
  /\ Cleaner.items_cleaned (final (Cleaner.clean_item sys p size s))
     + len (failures (emitted (Cleaner.clean_item sys p size s)))
     + (if is_ok (outcome (Cleaner.clean_item sys p size s)) then 0 else 1)
     = Cleaner.items_cleaned s + 1.
Proof.
  unfold Cleaner.clean_item, try_except, bind, Cleaner.call.
  cbn [get emit outcome emitted final app].
  destruct (os.isdir (Cleaner.disk s) p).
  - cbn [emit outcome emitted final app].
    destruct (shutil_rmtree sys p (Cleaner.disk s)) as [fs' [e|]];
      cbn [modify outcome emitted final app];
      [destruct (is_OSError e)|]; cbn; split; reflexivity || lia.
  - destruct (os.isfile (Cleaner.disk s) p).
    + cbn [emit outcome emitted final app].
      destruct (os_remove sys p (Cleaner.disk s)) as [fs' [e|]];
        cbn [modify outcome emitted final app];
        [destruct (is_OSError e)|]; cbn; split; reflexivity || lia.
    + cbn. split; reflexivity || lia.
Qed.

(** One turn of the cleaning loop. *)
Lemma clean_loop_step sys stop p ty size items index total s :
  Cleaner.clean_loop sys stop ((p, ty, size) :: items) index total s =
    (let s1 := final (Cleaner.read_running stop s) in
     if running_at stop (Cleaner.polls s) then
       let o1 := Cleaner.clean_item sys p size s1 in
       match outcome o1 with
       | Ok _ =>
           let o2 := Cleaner.clean_loop sys stop items (index + 1) total
                       (final o1) in
           Out (running_read true
                  :: clean_progress_signal (index + 1) total p
                  :: emitted o1 ++ emitted o2)
               (outcome o2) (final o2)
       | Raise e =>
           Out (running_read true
                  :: clean_progress_signal (index + 1) total p
                  :: emitted o1)
               (Raise e) (final o1)
       end
     else Out [running_read false] (Ok tt) s1).
Proof.
  cbn [Cleaner.clean_loop]. unfold bind. cbv zeta.
  cbn [Cleaner.read_running emit outcome emitted final].
  destruct (running_at stop (Cleaner.polls s)); cbn [negb app];
    [|reflexivity].
  cbn [emit outcome emitted final app].
  destruct (Cleaner.clean_item sys p size _) as [t1 [a|e] s2];
    reflexivity.
Qed.

Lemma clean_loop_count sys stop items : forall index total s,
  len (attempts (emitted (Cleaner.clean_loop sys stop items index total s)))
  + Cleaner.items_cleaned s
  = Cleaner.items_cleaned
      (final (Cleaner.clean_loop sys stop items index total s))
    + len (failures (emitted (Cleaner.clean_loop sys stop items index total s)))
    + (if is_ok (outcome (Cleaner.clean_loop sys stop items index total s))
       then 0 else 1).
Proof.
  induction items as [|[[p ty] size] items IH]; intros index total s.
  - cbn. lia.
  - rewrite clean_loop_step. cbv zeta.
    destruct (running_at stop (Cleaner.polls s));
      [|cbn; lia].
    destruct (clean_item_count sys p size
                (final (Cleaner.read_running stop s))) as [A C].
    change (Cleaner.items_cleaned (final (Cleaner.read_running stop s)))
      with (Cleaner.items_cleaned s) in C.
    destruct (Cleaner.clean_item sys p size _) as [t1 [[]|e] s2];
      cbn [outcome emitted final is_ok attempts failures app] in *.
    + specialize (IH (index + 1) total s2).
      rewrite attempts_app, failures_app, A. cbn [app].
      unfold len in *. rewrite length_app. cbn [List.length]. lia.
    + rewrite A. unfold len in *. cbn [List.length]. lia.
Qed.

(** X7: the count a clean reports is the number of items it started on,
    less those it logged as failed, less the one an unexpected exception
    interrupted (which there is exactly when success is false). *)
Theorem clean_count_is_attempts_less_failures sys stop items fs :
  exists t success count size,
    emitted (Cleaner.run sys stop items (Cleaner.start fs)) =
      t ++ [clean_finished_signal success count size]
    /\ len (attempts t) =
         count + len (failures t) + (if success then 0 else 1).
Proof.
  unfold Cleaner.run, Cleaner.clean.
  pose proof (clean_loop_count sys stop items 0 (len items)
                (Cleaner.start fs)) as U.
  remember (Cleaner.clean_loop sys stop items 0 (len items)) as loop eqn:E.
  unfold try_except, bind.
  cbn [modify emit outcome emitted final app].
  change {| Cleaner.total_size_cleaned := 0; Cleaner.items_cleaned := 0;
            Cleaner.polls := Cleaner.polls (Cleaner.start fs);
            Cleaner.disk := Cleaner.disk (Cleaner.start fs) |}
    with (Cleaner.start fs).
  change (Cleaner.items_cleaned (Cleaner.start fs)) with 0 in U.
  destruct (loop (Cleaner.start fs)) as [t [[]|e] s'];
    cbn [outcome emitted final Exception Cleaner.finish Cleaner.on_exception
         get emit app is_ok] in *.
  - exists (log_signal clean_started info :: t
              ++ [log_signal (clean_done (Cleaner.items_cleaned s')
                                (Cleaner.total_size_cleaned s')) info]).
    eexists true, _, _. split.
    + cbn [app]. rewrite <- app_assoc. reflexivity.
    + cbn [attempts failures]. rewrite attempts_app, failures_app.
      cbn [attempts failures]. rewrite !app_nil_r. lia.
  - exists (log_signal clean_started info :: t
              ++ [log_signal (clean_failed e) error]).
    eexists false, _, _. split.
    + cbn [app]. rewrite <- app_assoc. reflexivity.
    + cbn [attempts failures]. rewrite attempts_app, failures_app.
      cbn [attempts failures]. rewrite !app_nil_r. lia.
Qed.

(** ** Back ends that raise nothing but [OSError]s *)

Lemma rmtree_node_Dir es :
  rmtree_node (Dir es) =
    match rmtree_entries es with
    | None => None
    | Some (rest, e) => Some (Dir rest, e)
    end.
Proof. reflexivity. Qed.

Lemma rmtree_node_os_error x :
  forall y e, rmtree_node x = Some (y, e) -> is_OSError e = true.
Proof.
  induction x as [sz a|es IH| |why|target _] using node_induction;
    intros y e H; try (injection H as _ <-; reflexivity).
  rewrite rmtree_node_Dir in H.
  destruct (rmtree_entries es) as [[rest e']|] eqn:E; [|discriminate].
  injection H as _ <-. clear y.
  revert rest E. induction IH as [|[n c] l Hc _ IHl]; intros rest E;
    [discriminate|].
  cbn [rmtree_entries] in E. fold rmtree_entries in E.
  simpl in Hc.
  destruct c as [sz a|es'| |why|target]; eauto.
  - destruct (rmtree_node (Dir es')) as [[c' e'']|] eqn:R; eauto.
    injection E as _ <-. eapply Hc. reflexivity.
  - injection E as _ <-. reflexivity.
Qed.

Lemma posix_os_errors_only : os_errors_only posix.deleting.
Proof.
  intros p fs e [H|H]; cbn [posix.deleting shutil_rmtree os_remove] in H.
  - unfold posix.rmtree in H.
    destruct (resolve fs p) as [x|]; [|injection H as <-; reflexivity].
    destruct (rmtree_node x) as [[x' e']|] eqn:R.
    + injection H as <-. eapply rmtree_node_os_error, R.
    + destruct p; [injection H as <-; reflexivity | discriminate].
  - unfold posix.remove in H.
    destruct (resolve fs p) as [[| | | |]|]; try (injection H as <-; reflexivity);
      destruct p; try discriminate; injection H as <-; reflexivity.
Qed.

Section Careful.

Variable sys : deleting.
Hypothesis careful : os_errors_only sys.

Lemma clean_item_ok p size s :
  outcome (Cleaner.clean_item sys p size s) = Ok tt.
Proof.
  unfold Cleaner.clean_item, try_except, bind, Cleaner.call.
  cbn [get emit outcome emitted final app].
  destruct (os.isdir (Cleaner.disk s) p).
  - cbn [emit outcome emitted final app].
    pose proof (careful p (Cleaner.disk s)) as C.
    destruct (shutil_rmtree sys p (Cleaner.disk s)) as [fs' [e|]];
      cbn [modify outcome emitted final app snd] in *; [|reflexivity].
    rewrite (C e (or_introl eq_refl)). reflexivity.
  - destruct (os.isfile (Cleaner.disk s) p); [|reflexivity].
    cbn [emit outcome emitted final app].
    pose proof (careful p (Cleaner.disk s)) as C.
    destruct (os_remove sys p (Cleaner.disk s)) as [fs' [e|]];
      cbn [modify outcome emitted final app snd] in *; [|reflexivity].
    rewrite (C e (or_intror eq_refl)). reflexivity.
Qed.

Lemma clean_loop_ok stop items : forall index total s,
  outcome (Cleaner.clean_loop sys stop items index total s) = Ok tt.
Proof.
  induction items as [|[[p ty] size] items IH]; intros index total s;
    [reflexivity|].
  rewrite clean_loop_step. cbv zeta.
  destruct (running_at stop (Cleaner.polls s)); [|reflexivity].
  rewrite clean_item_ok. cbn [outcome]. apply IH.
Qed.

Lemma clean_loop_attempts_all items : forall index total s,
  attempts (emitted (Cleaner.clean_loop sys None items index total s)) =
    numbered items index total.
Proof.
  induction items as [|[[p ty] size] items IH]; intros index total s;
    [reflexivity|].
  rewrite clean_loop_step. cbv zeta. cbn [running_at].
  rewrite clean_item_ok. cbn [emitted attempts numbered].
  rewrite attempts_app, (proj1 (clean_item_count sys p size _)), IH.
  reflexivity.
Qed.

End Careful.

(** X8: with a deleting back end whose calls raise nothing but [OSError]s
    (the file-tree one is such), every clean ends with success true, and a
    clean that is not stopped starts on every item, in the order given, with
    the progress [(index + 1, total)]: no failure of one item keeps the
    cleaner from the next. *)
Theorem careful_back_end_never_aborts sys stop items fs :
  os_errors_only sys ->
  (exists t count size,
     emitted (Cleaner.run sys stop items (Cleaner.start fs)) =
       t ++ [clean_finished_signal true count size])
  /\ attempts (emitted (Cleaner.run sys None items (Cleaner.start fs))) =
       numbered items 0 (len items).
Proof.
  intros H. split.
  - unfold Cleaner.run, Cleaner.clean.
    pose proof (clean_loop_ok sys H stop items 0 (len items)
                  (Cleaner.start fs)) as O.
    remember (Cleaner.clean_loop sys stop items 0 (len items)) as loop.
    unfold try_except, bind.
    cbn [modify emit outcome emitted final app].
    change {| Cleaner.total_size_cleaned := 0; Cleaner.items_cleaned := 0;
              Cleaner.polls := Cleaner.polls (Cleaner.start fs);
              Cleaner.disk := Cleaner.disk (Cleaner.start fs) |}
      with (Cleaner.start fs).
    destruct (loop (Cleaner.start fs)) as [t r s'].
    cbn [outcome] in O. subst r.
    cbn [outcome emitted final Cleaner.finish get emit bind app].
    exists (log_signal clean_started info :: t
              ++ [log_signal (clean_done (Cleaner.items_cleaned s')
                                (Cleaner.total_size_cleaned s')) info]).
    eexists _, _. cbn [app]. rewrite <- app_assoc. reflexivity.
  - unfold Cleaner.run, Cleaner.clean.
    pose proof (clean_loop_ok sys H None items 0 (len items)
                  (Cleaner.start fs)) as O.
    pose proof (clean_loop_attempts_all sys H items 0 (len items)
                  (Cleaner.start fs)) as A.
    remember (Cleaner.clean_loop sys None items 0 (len items)) as loop.
    unfold try_except, bind.
    cbn [modify emit outcome emitted final app].
    change {| Cleaner.total_size_cleaned := 0; Cleaner.items_cleaned := 0;
              Cleaner.polls := Cleaner.polls (Cleaner.start fs);
              Cleaner.disk := Cleaner.disk (Cleaner.start fs) |}
      with (Cleaner.start fs).
    destruct (loop (Cleaner.start fs)) as [t r s'].
    cbn [outcome emitted] in O, A. subst r.
    cbn [outcome emitted final Cleaner.finish get emit bind app].
    cbn [attempts]. rewrite attempts_app. cbn [attempts].
    rewrite app_nil_r. exact A.
Qed.

Lemma careful_back_end_never_aborts_witness :
  attempts (emitted (Cleaner.run posix.deleting None two_items
                       (Cleaner.start one_left_tree))) =
    [(1, 2, ["a.pyc"]); (2, 2, ["b.pyc"])].
Proof.
  apply (proj2 (careful_back_end_never_aborts posix.deleting None two_items
                  one_left_tree posix_os_errors_only)).
Defined.

(** ** Stopping a clean *)

Lemma clean_item_same_work sys p size s s' :
  same_work s s' ->
  emitted (Cleaner.clean_item sys p size s) =
    emitted (Cleaner.clean_item sys p size s')
  /\ outcome (Cleaner.clean_item sys p size s) =
       outcome (Cleaner.clean_item sys p size s')
  /\ same_work (final (Cleaner.clean_item sys p size s))
               (final (Cleaner.clean_item sys p size s'))
  /\ Cleaner.polls (final (Cleaner.clean_item sys p size s)) = Cleaner.polls s.
Proof.
  destruct s as [bytes n polls fs], s' as [bytes' n' polls' fs'].
  unfold same_work. cbn [Cleaner.disk Cleaner.items_cleaned
                         Cleaner.total_size_cleaned].
  intros (<- & <- & <-).
  unfold Cleaner.clean_item, try_except, bind, Cleaner.call.
  cbn [get emit outcome emitted final app Cleaner.disk].
  destruct (os.isdir fs p).
  - cbn [emit outcome emitted final app Cleaner.disk].
    destruct (shutil_rmtree sys p fs) as [fs1 [e|]];
      cbn [modify outcome emitted final app];
      [destruct (is_OSError e)|]; cbn; repeat split; reflexivity.
  - destruct (os.isfile fs p).
    + cbn [emit outcome emitted final app Cleaner.disk].
      destruct (os_remove sys p fs) as [fs1 [e|]];
        cbn [modify outcome emitted final app];
        [destruct (is_OSError e)|]; cbn; repeat split; reflexivity.
    + cbn. repeat split; reflexivity.
Qed.

Lemma clean_loop_prefix sys k items : forall index total total' s s',
  same_work s s' ->
  same_work
    (final (Cleaner.clean_loop sys (Some k) items index total s))
    (final (Cleaner.clean_loop sys None
              (firstn (k - Cleaner.polls s) items) index total' s'))
  /\ outcome (Cleaner.clean_loop sys (Some k) items index total s) =
       outcome (Cleaner.clean_loop sys None
                  (firstn (k - Cleaner.polls s) items) index total' s')
  /\ map snd (attempts
                (emitted (Cleaner.clean_loop sys (Some k) items index total s)))
     = map snd (attempts
                  (emitted (Cleaner.clean_loop sys None
                              (firstn (k - Cleaner.polls s) items)
                              index total' s'))).
Proof.
  induction items as [|[[p ty] size] items IH]; intros index total total' s s' W.
  - rewrite firstn_nil. cbn. auto.
  - rewrite (clean_loop_step sys (Some k)). cbv zeta. cbn [running_at].
    destruct (Nat.ltb_spec (Cleaner.polls s) k) as [Hlt|Hge].
    + destruct (k - Cleaner.polls s)%nat as [|r] eqn:Er; [lia|].
      cbn [firstn]. rewrite (clean_loop_step sys None). cbv zeta.
      cbn [running_at].
      destruct (clean_item_same_work sys p size
                  (final (Cleaner.read_running (Some k) s))
                  (final (Cleaner.read_running None s')))
        as (E1 & E2 & W2 & P2).
      { destruct W as (A & B & C). repeat split; assumption. }
      remember (Cleaner.clean_item sys p size
                  (final (Cleaner.read_running (Some k) s))) as a eqn:Ea.
      remember (Cleaner.clean_item sys p size
                  (final (Cleaner.read_running None s'))) as b eqn:Eb.
      clear Ea Eb. destruct a as [t1 r1 s2], b as [t1' r1' s2'].
      cbn [outcome emitted final] in *. subst t1' r1'.
      destruct r1 as [[]|e]; cbn [outcome emitted final attempts map snd].
      * specialize (IH (index + 1) total total' _ _ W2).
        rewrite P2 in IH. cbn [Cleaner.read_running final Cleaner.polls] in IH.
        replace (k - S (Cleaner.polls s))%nat with r in IH by lia.
        destruct IH as (I1 & I2 & I3).
        split; [exact I1|]. split; [exact I2|].
        rewrite !attempts_app, !map_app, I3. reflexivity.
      * split; [exact W2|]. split; reflexivity.
    + replace (k - Cleaner.polls s)%nat with 0%nat by lia.
      cbn. split; [exact W|]. split; reflexivity.
Qed.

Lemma last_after_two {A} (l : list A) a b d : last (l ++ [a; b]) d = b.
Proof.
  change (l ++ [a; b]) with (l ++ [a] ++ [b]).
  rewrite app_assoc. apply last_last.
Qed.

(** X9: a clean that is stopped at its [k]-th read of the flag leaves the
    disk and the counters exactly as a clean of the first [k] items alone
    does, has started on the same paths, and ends the same way: the items
    after the [k]-th are not touched. *)
Theorem stopped_clean_is_clean_of_prefix sys k items fs :
  same_work
    (final (Cleaner.run sys (Some k) items (Cleaner.start fs)))
    (final (Cleaner.run sys None (firstn k items) (Cleaner.start fs)))
  /\ map snd (attempts
                (emitted (Cleaner.run sys (Some k) items (Cleaner.start fs))))
     = map snd (attempts
                  (emitted (Cleaner.run sys None (firstn k items)
                              (Cleaner.start fs))))
  /\ last (emitted (Cleaner.run sys (Some k) items (Cleaner.start fs)))
          (running_read true)
     = last (emitted (Cleaner.run sys None (firstn k items) (Cleaner.start fs)))
            (running_read true).
Proof.
  unfold Cleaner.run, Cleaner.clean.
  destruct (clean_loop_prefix sys k items 0 (len items)
              (len (firstn k items)) (Cleaner.start fs) (Cleaner.start fs))
    as (W & O & A).
  { repeat split. }
  change (k - Cleaner.polls (Cleaner.start fs))%nat with (k - 0)%nat in *.
  rewrite Nat.sub_0_r in *.
  remember (Cleaner.clean_loop sys (Some k) items 0 (len items)) as l1.
  remember (Cleaner.clean_loop sys None (firstn k items) 0
              (len (firstn k items))) as l2.
  unfold try_except, bind.
  cbn [modify emit outcome emitted final app].
  change {| Cleaner.total_size_cleaned := 0; Cleaner.items_cleaned := 0;
            Cleaner.polls := Cleaner.polls (Cleaner.start fs);
            Cleaner.disk := Cleaner.disk (Cleaner.start fs) |}
    with (Cleaner.start fs).
  destruct (l1 (Cleaner.start fs)) as [t1 r1 s1].
  destruct (l2 (Cleaner.start fs)) as [t2 r2 s2].
  cbn [outcome emitted final] in *. subst r2.
  destruct W as (Wd & Wi & Wt).
  destruct r1 as [[]|e];
    cbn [outcome emitted final Exception Cleaner.finish Cleaner.on_exception
         get emit bind app attempts map snd].
  - split; [repeat split; assumption|]. split.
    + rewrite !attempts_app, !map_app, A. reflexivity.
    + rewrite !app_comm_cons, !last_after_two, Wi, Wt. reflexivity.
  - split; [repeat split; assumption|]. split.
    + rewrite !attempts_app, !map_app, A. reflexivity.
    + rewrite !app_comm_cons, !last_after_two, Wi, Wt. reflexivity.
Qed.

(** ** A size is never too large *)




(** ** Formatted sizes *)

Lemma round_half_even_close q :
  (inject_Z (round_half_even q) - (1 # 2) <= q
   /\ q <= inject_Z (round_half_even q) + (1 # 2))%Q.
Proof.
  unfold round_half_even.
  pose proof (Qfloor_le q) as L. pose proof (Qlt_floor q) as U.
  rewrite inject_Z_plus in U. change (inject_Z 1) with 1%Q in U.
  destruct (Qcompare_spec (q - inject_Z (Qfloor q)) (1 # 2)) as [E|E|E].
  - destruct (Z.even (Qfloor q)); rewrite ?inject_Z_plus;
      change (inject_Z 1) with 1%Q; split; Lqa.lra.
  - split; Lqa.lra.
  - rewrite inject_Z_plus. change (inject_Z 1) with 1%Q. split; Lqa.lra.
Qed.

Lemma round_half_even_near q n :
  (inject_Z n - (1 # 2) < q)%Q -> (q < inject_Z n + (1 # 2))%Q ->
  round_half_even q = n.
Proof.
  intros A B. destruct (round_half_even_close q) as [C D].
  assert (H1 : (inject_Z (round_half_even q) < inject_Z (n + 1))%Q).
  { rewrite inject_Z_plus. change (inject_Z 1) with 1%Q. Lqa.lra. }
  assert (H2 : (inject_Z n < inject_Z (round_half_even q + 1))%Q).
  { rewrite inject_Z_plus. change (inject_Z 1) with 1%Q. Lqa.lra. }
  rewrite <- Zlt_Qlt in H1, H2. lia.
Qed.

(** What a size scaled by a unit of [unit] bytes rounds to. *)
Lemma scaled_hundredths size unit_ :
  0 < unit_ ->
  - unit_ <=
    2 * (100 * size
         - round_half_even (inject_Z size / inject_Z unit_ * 100) * unit_)
  <= unit_.
Proof.
  intros Hu.
  destruct (round_half_even_close (inject_Z size / inject_Z unit_ * 100))
    as [C D].
  set (h := round_half_even (inject_Z size / inject_Z unit_ * 100)) in *.
  assert (Hpos : (0 < inject_Z unit_)%Q).
  { change (inject_Z 0 < inject_Z unit_)%Q. rewrite <- Zlt_Qlt. exact Hu. }
  assert (E : (inject_Z size / inject_Z unit_ * 100 * inject_Z unit_
               == inject_Z (100 * size))%Q).
  { rewrite inject_Z_mult. field. intros Z0. rewrite Z0 in Hpos.
    apply (Qlt_irrefl 0), Hpos. }
  assert (C' : ((inject_Z h - (1 # 2)) * inject_Z unit_
                <= inject_Z (100 * size))%Q).
  { rewrite <- E. apply Qmult_le_compat_r; [exact C | apply Qlt_le_weak, Hpos]. }
  assert (D' : (inject_Z (100 * size)
                <= (inject_Z h + (1 # 2)) * inject_Z unit_)%Q).
  { rewrite <- E. apply Qmult_le_compat_r; [exact D | apply Qlt_le_weak, Hpos]. }
  clear C D E. remember (100 * size) as z eqn:Ez.
  unfold Qle in C', D'. cbn in C', D'. lia.
Qed.

(** X11: from 1024 bytes up to [2^53] bytes, where the quotient by the unit
    is a float without rounding, the text of a size is a number with two
    decimals and the unit KB (below [1024^2]), MB (below [1024^3]) or GB,
    and that number is the size in the unit rounded to the nearest
    hundredth: it is off by at most half a hundredth of the unit. *)
Theorem format_size_is_rounded size :
  (1024 <= size < 1024 * 1024 ->
   exists h,
     _format_size size = (hundredths_text h ++ " KB")%string
     /\ - 1024 <= 2 * (100 * size - h * 1024) <= 1024)
  /\ (1024 * 1024 <= size < 1024 * 1024 * 1024 ->
      exists h,
        _format_size size = (hundredths_text h ++ " MB")%string
        /\ - (1024 * 1024) <= 2 * (100 * size - h * (1024 * 1024))
           <= 1024 * 1024)
  /\ (1024 * 1024 * 1024 <= size < 2 ^ 53 ->
      exists h,
        _format_size size = (hundredths_text h ++ " GB")%string
        /\ - (1024 * 1024 * 1024)
           <= 2 * (100 * size - h * (1024 * 1024 * 1024))
           <= 1024 * 1024 * 1024).
Proof.
  unfold _format_size. repeat split; intros H;
    destruct (fixed2_units size ltac:(lia)) as (K & M & G);
    rewrite ?K, ?M, ?G; unfold fixed2.
  - destruct (Z.ltb_spec size 1024); [lia|].
    destruct (Z.ltb_spec size (1024 * 1024)); [|lia].
    eexists. split; [reflexivity|].
    apply (scaled_hundredths size 1024). lia.
  - destruct (Z.ltb_spec size 1024); [lia|].
    destruct (Z.ltb_spec size (1024 * 1024)); [lia|].
    destruct (Z.ltb_spec size (1024 * 1024 * 1024)); [|lia].
    eexists. split; [reflexivity|].
    apply (scaled_hundredths size (1024 * 1024)). lia.
  - destruct (Z.ltb_spec size 1024); [lia|].
    destruct (Z.ltb_spec size (1024 * 1024)); [lia|].
    destruct (Z.ltb_spec size (1024 * 1024 * 1024)); [lia|].
    eexists. split; [reflexivity|].
    apply (scaled_hundredths size (1024 * 1024 * 1024)). lia.
Qed.

(** X12: a size just below a unit is shown as 1024.00 of the unit below:
    the five sizes from 1048571 bytes up to one byte less than [1024^2] read
    "1024.00 KB", and the sizes from 1073736582 bytes up to one byte less
    than [1024^3] read "1024.00 MB". *)
Theorem format_size_just_below_a_unit size :
  (1048571 <= size < 1024 * 1024 -> _format_size size = "1024.00 KB")
  /\ (1073736582 <= size < 1024 * 1024 * 1024 ->
      _format_size size = "1024.00 MB").
Proof.
  unfold _format_size. split; intros H;
    destruct (fixed2_units size ltac:(lia)) as (K & M & G);
    rewrite ?K, ?M, ?G; unfold fixed2.
  - destruct (Z.ltb_spec size 1024); [lia|].
    destruct (Z.ltb_spec size (1024 * 1024)); [|lia].
    rewrite (round_half_even_near _ 102400); [reflexivity | |];
      unfold Qlt; cbn; lia.
  - destruct (Z.ltb_spec size 1024); [lia|].
    destruct (Z.ltb_spec size (1024 * 1024)); [lia|].
    destruct (Z.ltb_spec size (1024 * 1024 * 1024)); [|lia].
    rewrite (round_half_even_near _ 102400); [reflexivity | |];
      unfold Qlt; cbn; lia.
Qed.

(** ** From the scan to the list of items to clean *)

Lemma receive_app t1 t2 w :
  PythonCleanerUI.receive (t1 ++ t2) w =
    PythonCleanerUI.receive t2 (PythonCleanerUI.receive t1 w).
Proof. unfold PythonCleanerUI.receive. apply fold_left_app. Qed.

Lemma checked_items_app a b :
  PythonCleanerUI.checked_items (a ++ b) =
    PythonCleanerUI.checked_items a ++ PythonCleanerUI.checked_items b.
Proof.
  induction a as [|i a IH]; simpl; [reflexivity|].
  destruct (PythonCleanerUI.checkState i); simpl; rewrite IH; reflexivity.
Qed.

Lemma checked_items_of_candidates cs :
  PythonCleanerUI.checked_items
    (map (fun c =>
            {| PythonCleanerUI.checkState := c_preselected c;
               PythonCleanerUI.text1 := c_path c;
               PythonCleanerUI.text3 := _format_size (c_int (c_size c));
               PythonCleanerUI.data2 := c_category c;
               PythonCleanerUI.data3 := c_int (c_size c) |}) cs) =
    map item_of (filter c_preselected cs).
Proof.
  induction cs as [|c cs IH]; [reflexivity|].
  cbn [map PythonCleanerUI.checked_items PythonCleanerUI.checkState filter
       PythonCleanerUI.text1 PythonCleanerUI.data2 PythonCleanerUI.data3].
  destruct (c_preselected c); cbn [map]; rewrite IH; reflexivity.
Qed.

Lemma filter_ext_Forall {A} (f g : A -> bool) l :
  Forall (fun x => f x = g x) l -> filter f l = filter g l.
Proof.
  induction 1 as [|x l H _ IH]; simpl; [reflexivity|].
  rewrite H, IH. reflexivity.
Qed.

(** X13: when the signals of a scan have been received by a window whose
    results were cleared, and no check box has been touched, the items
    [clean_selected_items] collects are the candidates of every category
    but venv, in the order they were announced, each with its path, its
    category and the size that came through the signal: [c_int] of the size
    the scanner found, which is that size itself when every size is below
    [2^31] bytes.  A virtual environment is never among the items to clean
    unless it is checked by hand. *)
Theorem default_selection_leaves_venvs_out fs scan_options now stop paths :
  PythonCleanerUI.checked_items
    (PythonCleanerUI.results_tree
       (PythonCleanerUI.receive
          (Scanner.signals fs scan_options now stop paths)
          PythonCleanerUI.cleared)) =
    map (fun c => (c_path c, c_category c, c_int (c_size c)))
        (filter (fun c => negb (String.eqb (c_category c) "venv"))
                (candidates (Scanner.signals fs scan_options now stop paths)))
  /\ (Forall (fun c => - 2 ^ 31 <= c_size c < 2 ^ 31)
             (candidates (Scanner.signals fs scan_options now stop paths)) ->
      PythonCleanerUI.checked_items
        (PythonCleanerUI.results_tree
           (PythonCleanerUI.receive
              (Scanner.signals fs scan_options now stop paths)
              PythonCleanerUI.cleared)) =
        map (fun c => (c_path c, c_category c, c_size c))
            (filter (fun c => negb (String.eqb (c_category c) "venv"))
                    (candidates
                       (Scanner.signals fs scan_options now stop paths)))).
Proof.
  assert (E : PythonCleanerUI.checked_items
    (PythonCleanerUI.results_tree
       (PythonCleanerUI.receive
          (Scanner.signals fs scan_options now stop paths)
          PythonCleanerUI.cleared)) =
    map item_of
        (filter (fun c => negb (String.eqb (c_category c) "venv"))
                (candidates (Scanner.signals fs scan_options now stop paths)))).
  { rewrite (proj1 (receive_spec _ _)). cbn [PythonCleanerUI.cleared
      PythonCleanerUI.results_tree app].
    rewrite checked_items_of_candidates. f_equal.
    apply filter_ext_Forall.
    destruct (run_shape fs scan_options now stop paths)
      as (t & m & l & ok & sz & -> & _ & H & _).
    rewrite candidates_app. cbn [candidates]. rewrite app_nil_r. exact H. }
  split; [exact E|].
  intros F. rewrite E. apply map_ext_in. intros c Hc.
  apply filter_In in Hc as [Hc _].
  unfold item_of. rewrite c_int_fits; [reflexivity|].
  eapply Forall_forall in F; eassumption.
Qed.

Lemma checked_items_all tree :
  PythonCleanerUI.checked_items
    (map (PythonCleanerUI.setCheckState true) tree) =
    map (fun i => (PythonCleanerUI.text1 i, PythonCleanerUI.data2 i,
                   PythonCleanerUI.data3 i)) tree.
Proof. induction tree as [|i tree IH]; simpl; [|rewrite IH]; reflexivity. Qed.

Lemma checked_items_none tree :
  PythonCleanerUI.checked_items
    (map (PythonCleanerUI.setCheckState false) tree) = [].
Proof. induction tree as [|i tree IH]; simpl; auto. Qed.

(** X14: after "select all", [clean_selected_items] answered with Yes starts
    the cleaner on every candidate the scan announced, in order (on exactly
    [found_items]), venvs included, each with the size that came through the
    signal ([c_int] of the size the scanner found); after "deselect all" it
    starts no cleaner, whatever the answer. *)
Theorem select_all_and_deselect_all fs scan_options now stop paths reply :
  PythonCleanerUI.checked_items
    (PythonCleanerUI.results_tree
       (PythonCleanerUI.select_all_items
          (PythonCleanerUI.receive
             (Scanner.signals fs scan_options now stop paths)
             PythonCleanerUI.cleared))) =
    PythonCleanerUI.found_items
      (PythonCleanerUI.receive
         (Scanner.signals fs scan_options now stop paths)
         PythonCleanerUI.cleared)
  /\ PythonCleanerUI.found_items
       (PythonCleanerUI.receive
          (Scanner.signals fs scan_options now stop paths)
          PythonCleanerUI.cleared) =
       map (fun c => (c_path c, c_category c, c_int (c_size c)))
           (candidates (Scanner.signals fs scan_options now stop paths))
  /\ PythonCleanerUI.clean_selected_items reply
       (PythonCleanerUI.deselect_all_items
          (PythonCleanerUI.receive
             (Scanner.signals fs scan_options now stop paths)
             PythonCleanerUI.cleared)) =
       PythonCleanerUI.nothing_selected.
Proof.
  destruct (receive_spec (Scanner.signals fs scan_options now stop paths)
              PythonCleanerUI.cleared) as [A B].
  cbn [PythonCleanerUI.cleared PythonCleanerUI.results_tree
       PythonCleanerUI.found_items app] in A, B.
  repeat split.
  - cbn [PythonCleanerUI.select_all_items PythonCleanerUI.results_tree].
    rewrite checked_items_all, A, B, map_map. reflexivity.
  - exact B.
  - unfold PythonCleanerUI.clean_selected_items.
    cbn [PythonCleanerUI.deselect_all_items PythonCleanerUI.results_tree].
    rewrite checked_items_none. reflexivity.
Qed.

(** ** What the window shows when a scan ends *)

(** Below [2^53] bytes, the division in the worker, the float that arrives
    and the two multiplications in the window lose nothing. *)
Lemma int_of_megabytes bytes :
  Z.abs bytes < 2 ^ 53 ->
  int_ (fmul (fmul (double (inject_Z bytes / inject_Z (1024 * 1024))) 1024)
             1024) = bytes.
Proof.
  intros H. unfold fmul.
  set (x0 := double (inject_Z bytes / inject_Z (1024 * 1024))).
  assert (E0 : (x0 == inject_Z bytes * 2 ^ (- 20))%Q).
  { assert (P : (inject_Z bytes / inject_Z (1024 * 1024)
                 == inject_Z bytes * 2 ^ (- 20))%Q) by reflexivity.
    unfold x0. rewrite (double_exact _ bytes (- 20) H P). exact P. }
  set (x1 := double (x0 * 1024)).
  assert (E1 : (x1 == inject_Z bytes * 2 ^ (- 10))%Q).
  { assert (P : (x0 * 1024 == inject_Z bytes * 2 ^ (- 10))%Q).
    { rewrite E0. change (2 ^ (- 20))%Q with (1 # 1048576).
      change (2 ^ (- 10))%Q with (1 # 1024). field. }
    unfold x1. rewrite (double_exact _ bytes (- 10) H P). exact P. }
  assert (E2 : (double (x1 * 1024) == inject_Z bytes)%Q).
  { assert (P : (x1 * 1024 == inject_Z bytes * 2 ^ 0)%Q).
    { rewrite E1. change (2 ^ (- 10))%Q with (1 # 1024).
      change (2 ^ 0)%Q with 1%Q. field. }
    rewrite (double_exact _ bytes 0 H P), P.
    change (2 ^ 0)%Q with 1%Q. ring. }
  apply int_of_Z, E2.
Qed.

(** X15: when a scan ends with success after announcing less than [2^53]
    bytes, the slot of its finished signal writes to the statistics label
    the number of candidates announced, as the [int] argument of the signal
    carries it, and the formatted sum of their sizes in bytes: dividing by
    [1024 * 1024] in the worker and multiplying back in the window loses
    nothing. *)
Theorem scan_summary_round_trip fs scan_options now stop paths w :
  exists t m l success total_size_mb,
    Scanner.signals fs scan_options now stop paths =
      t ++ [log_signal m l;
            scan_finished_signal success (count_found t) total_size_mb]
    /\ (success = true ->
        Z.abs (found_bytes t) < 2 ^ 53 ->
        snd (fst (PythonCleanerUI.scan_finished_slot
                    success (count_found t) total_size_mb w)) =
          Some (c_int (count_found t), _format_size (found_bytes t))).
Proof.
  destruct (run_shape fs scan_options now stop paths)
    as (t & m & l & ok & sz & E & Hsz & _).
  exists t, m, l, ok, sz. split; [exact E|].
  intros -> Hb. subst sz.
  unfold PythonCleanerUI.scan_finished_slot, PythonCleanerUI.on_scan_finished.
  cbn [fst snd]. rewrite (int_of_megabytes _ Hb). reflexivity.
Qed.

(** ** The progress of a clean *)

Lemma clean_percent_range current total :
  1 <= current <= total ->
  0 <= PythonCleanerUI.clean_percent current total <= 100
  /\ (current = total -> PythonCleanerUI.clean_percent current total = 100).
Proof.
  intros H. unfold PythonCleanerUI.clean_percent.
  destruct (Z.ltb_spec 0 total) as [Ht|Ht]; [|lia].
  apply percent_range; lia.
Qed.

Lemma len_cons {A} (x : A) l : len (x :: l) = len l + 1.
Proof. unfold len. cbn [List.length]. lia. Qed.

Lemma clean_loop_attempts_numbered sys stop items : forall index total s,
  Forall (fun a : Z * Z * path =>
            index < fst (fst a) <= index + len items
            /\ snd (fst a) = total)
         (attempts (emitted (Cleaner.clean_loop sys stop items index total s))).
Proof.
  induction items as [|[[p ty] size] items IH]; intros index total s;
    [constructor|].
  pose proof (len_nonneg items) as N.
  rewrite len_cons, clean_loop_step. cbv zeta.
  destruct (running_at stop (Cleaner.polls s)); [|constructor].
  destruct (clean_item_count sys p size
              (final (Cleaner.read_running stop s))) as [A _].
  destruct (Cleaner.clean_item sys p size _) as [t1 [[]|e] s2];
    cbn [outcome emitted final attempts] in *.
  - constructor; [cbn [fst snd]; lia|].
    rewrite attempts_app, A. cbn [app].
    eapply Forall_impl; [|apply (IH (index + 1) total s2)].
    intros [[c n] q] [H1 H2]. cbn [fst snd] in *. lia.
  - rewrite A. constructor; [cbn [fst snd]; lia | constructor].
Qed.

(** X16: every progress signal of a clean carries a position between 1 and
    the number of items and that number as its total, so the percentage the
    window shows for it lies between 0 and 100, and is 100 for the last
    item. *)
Theorem clean_progress_in_range sys stop items fs :
  Forall (fun a : Z * Z * path =>
            1 <= fst (fst a) <= len items
            /\ snd (fst a) = len items
            /\ 0 <= PythonCleanerUI.clean_percent (fst (fst a)) (snd (fst a))
               <= 100
            /\ (fst (fst a) = len items ->
                PythonCleanerUI.clean_percent (fst (fst a)) (snd (fst a))
                = 100))
         (attempts (emitted (Cleaner.run sys stop items (Cleaner.start fs)))).
Proof.
  unfold Cleaner.run, Cleaner.clean.
  pose proof (clean_loop_attempts_numbered sys stop items 0 (len items)
                (Cleaner.start fs)) as U.
  remember (Cleaner.clean_loop sys stop items 0 (len items)) as loop eqn:E.
  unfold try_except, bind.
  cbn [modify emit outcome emitted final app].
  change {| Cleaner.total_size_cleaned := 0; Cleaner.items_cleaned := 0;
            Cleaner.polls := Cleaner.polls (Cleaner.start fs);
            Cleaner.disk := Cleaner.disk (Cleaner.start fs) |}
    with (Cleaner.start fs).
  assert (G : Forall (fun a : Z * Z * path =>
            1 <= fst (fst a) <= len items
            /\ snd (fst a) = len items
            /\ 0 <= PythonCleanerUI.clean_percent (fst (fst a)) (snd (fst a))
               <= 100
            /\ (fst (fst a) = len items ->
                PythonCleanerUI.clean_percent (fst (fst a)) (snd (fst a))
                = 100))
         (attempts (emitted (loop (Cleaner.start fs))))).
  { eapply Forall_impl; [|exact U].
    intros [[c n] q] [H1 H2]. cbn [fst snd] in *. subst n.
    destruct (clean_percent_range c (len items)) as [R1 R2]; [lia|].
    repeat split; try lia; auto. }
  destruct (loop (Cleaner.start fs)) as [t [[]|e] s'];
    cbn [outcome emitted final Exception Cleaner.finish Cleaner.on_exception
         get emit bind app attempts] in *;
    rewrite attempts_app; cbn [attempts]; rewrite app_nil_r; exact G.
Qed.

(** ** A scan that succeeds has missed no name *)

(** X17: a scan that is not stopped and ends with success true has
    announced a candidate for every name that an enabled name rule matches
    at every directory level [os.walk] lists under an existing root: every
    directory named [__pycache__] or [.ipynb_checkpoints] or [build] or
    [dist], and every file whose name ends in [.pyc], [.pyc.tmp], [.py~] or
    [.pyo], with the path of the entry and the category of the rule. *)
Theorem successful_scan_misses_no_name fs scan_options now paths t count size
  base root dirs files p ty :
  Scanner.signals fs scan_options now None paths =
    t ++ [scan_finished_signal true count size] ->
  In base paths -> os.exists_ fs base = true ->
  In (root, dirs, files) (os.walk fs base) ->
  owed scan_options root dirs files p ty ->
  exists size', In (found_item_signal p ty size' true) t.
Proof.
  intros E Hbase Hex Hw Ho.
  assert (R : Exists (announcing p ty) t).
  { eapply success_reports; [|intros [sz' H]; discriminate H | exact E].
    eapply scan_reports; [exact Hbase | exact Hex|].
    eapply scan_base_reports; [exact Hw|].
    apply inspect_reports, Ho. }
  apply Exists_exists in R as (ev & Hev & sz' & ->).
  exists sz'. exact Hev.
Qed.

Lemma successful_scan_misses_no_name_witness :
  exists size',
    In (found_item_signal ["proj"; "__pycache__"] "pycache" size' true)
       (removelast project_scan).
Proof.
  apply (successful_scan_misses_no_name project_tree bytecode_rules 0%Q [[]]
           (removelast project_scan) 3
           (inject_Z 40 / inject_Z (1024 * 1024))%Q
           [] ["proj"] ["__pycache__"] ["module.pyc"]).
  - vm_compute; reflexivity.
  - left; reflexivity.
  - reflexivity.
  - vm_compute. right; left; reflexivity.
  - left. split; [reflexivity|]. split; [reflexivity|].
    exists "__pycache__". split; [left; reflexivity|].
    split; reflexivity.
Defined.
